(** * ts_flattener: a shallow embedding of [ProjectFlattener]

    The development follows [ts_flattener.py]: the string and path helpers
    the class relies on, the file selector [is_relevant_file], the ranker
    [get_file_priority], the annotator [process_imports] (a call of
    [re.sub]), and the packer [flatten] with [write_chunk] and
    [create_chunk_manifest].

    Conventions.
    - A Python [str] is a list of code points ([N]); [str "..."] turns a
      literal into that list.
    - Paths follow POSIX: [os.sep] is ["/"].
    - Everything that depends on the machine the program runs on (the
      directory tree, file contents, the tokenizer, failing writes) is a
      field of the record [Env]. *)

From Stdlib Require Import Ascii String DecimalString DecimalNat DecimalFacts.
From Stdlib Require Import List Bool Arith NArith ZArith Lia Permutation.
Import ListNotations.

Local Open Scope list_scope.

(** ** Python strings *)

Definition pystr : Type := list N.

Definition str (s : string) : pystr :=
  map N_of_ascii (list_ascii_of_string s).

Definition chr_nl : N := 10.
Definition chr_dquote : N := 34.
Definition chr_squote : N := 39.
Definition chr_dot : N := 46.
Definition chr_slash : N := 47.

Definition os_sep : N := chr_slash.

Fixpoint str_eqb (a b : pystr) : bool :=
  match a, b with
  | [], [] => true
  | x :: a', y :: b' => N.eqb x y && str_eqb a' b'
  | _, _ => false
  end.

(** [s.startswith(prefix)] *)
Fixpoint startswith (s prefix : pystr) {struct prefix} : bool :=
  match prefix, s with
  | [], _ => true
  | p :: prefix', c :: s' => N.eqb c p && startswith s' prefix'
  | _ :: _, [] => false
  end.

(** [s.endswith(suffix)] *)
Definition endswith (s suffix : pystr) : bool :=
  startswith (rev s) (rev suffix).

(** [sub in s] *)
Fixpoint str_in (sub s : pystr) : bool :=
  startswith s sub ||
  match s with
  | [] => false
  | _ :: s' => str_in sub s'
  end.

(** [s.replace(old, new)] for one-character [old] and [new]. *)
Definition replace (old new : N) (s : pystr) : pystr :=
  map (fun c => if N.eqb c old then new else c) s.

(** [s.split(sep)] for a one-character separator: never the empty list. *)
Fixpoint split (sep : N) (s : pystr) : list pystr :=
  match s with
  | [] => [[]]
  | c :: s' =>
      if N.eqb c sep then [] :: split sep s'
      else match split sep s' with
           | [] => [[c]]
           | w :: ws => (c :: w) :: ws
           end
  end.

(** [sep.join(parts)] *)
Fixpoint join (sep : pystr) (parts : list pystr) : pystr :=
  match parts with
  | [] => []
  | [p] => p
  | p :: ps => p ++ sep ++ join sep ps
  end.

(** [str(n)] for a non-negative integer. *)
Definition str_of_nat (n : nat) : pystr :=
  str (NilZero.string_of_uint (Nat.to_uint n)).

(** [c * n] for a one-character string [c]. *)
Definition str_repeat (c : N) (n : nat) : pystr := repeat c n.

(** What the Python predicates decide, as propositions. *)
Definition Prefix (p s : pystr) : Prop := exists t, s = p ++ t.
Definition Suffix (p s : pystr) : Prop := exists t, s = t ++ p.
Definition Infix (p s : pystr) : Prop := exists a b, s = a ++ p ++ b.

(** ** Paths (posixpath and pathlib on POSIX) *)

(** [s[i:j]] for [i <= j] within the string. *)
Definition slice (i j : nat) (s : pystr) : pystr := firstn (j - i) (skipn i s).

(** [posixpath.splitroot]: the root (none, one slash, or exactly two) and
    what follows it. *)
Definition splitroot (p : pystr) : pystr * pystr :=
  if negb (str_eqb (slice 0 1 p) [os_sep]) then ([], p)
  else if negb (str_eqb (slice 1 2 p) [os_sep]) || str_eqb (slice 2 3 p) [os_sep]
  then ([os_sep], skipn 1 p)
  else (slice 0 2 p, skipn 2 p).

(** The segments pathlib keeps: neither empty nor ["."]. *)
Definition kept_part (x : pystr) : bool :=
  negb (str_eqb x []) && negb (str_eqb x [chr_dot]).

Definition parse_path (p : pystr) : pystr * list pystr :=
  let (root, rel) := splitroot p in
  (root, filter kept_part (split chr_slash rel)).

(** [str(Path(p))] *)
Definition str_Path (p : pystr) : pystr :=
  let (root, tail) := parse_path p in
  match root ++ join [chr_slash] tail with
  | [] => [chr_dot]
  | s => s
  end.

(** [os.path.join(a, b)] *)
Definition os_path_join (a b : pystr) : pystr :=
  if startswith b [chr_slash] then b
  else if str_eqb a [] || endswith a [chr_slash] then a ++ b
  else a ++ [chr_slash] ++ b.

(** ** The environment of a run *)

Inductive exn : Type :=
| ReadError
| WriteError
(** the [RuntimeError] of [Path.resolve] on a loop of symbolic links *)
| ResolveError.

Record Env : Type := {
  (** [os.walk(top)]: the triples (root, dirs, files) in the order yielded *)
  os_walk : pystr -> list (pystr * list pystr * list pystr);
  (** [str(Path(p).resolve())]: absolute, symbolic links followed; [None]
      when it raises, as it does on a loop of symbolic links *)
  resolve : pystr -> option pystr;
  (** [os.path.relpath(path, start)] *)
  relpath : pystr -> pystr -> pystr;
  (** [open(p, 'r', encoding='utf-8').read()]; [None] when it raises *)
  read_text : pystr -> option pystr;
  (** the cl100k_base encoding of a text; [None] when tiktoken raises *)
  encode : pystr -> option (list N);
  (** whether the n-th attempt of the run to write a file raises *)
  write_raises : nat -> bool;
  (** for an attempt that raises: [None] when [open] itself raises, else
      how many characters had reached the file, which [open] had emptied *)
  written_before_raise : nat -> option nat
}.

(** The fields [__init__] sets. The object is taken as constructed:
    [project_path] is already absolute and the output directory exists. *)
Record ProjectFlattener : Type := {
  project_path : pystr;
  output_dir : pystr;
  tokens_per_file : Z;
  prioritize_paths : list pystr
}.

(** ** estimate_tokens *)

Definition estimate_tokens (env : Env) (text : pystr) : Z :=
  match encode env text with
  | Some tokens => Z.of_nat (length tokens)
  | None => Z.of_nat (length text) / 4
  end.

(** ** is_relevant_file *)

Definition excluded_dirs : list pystr :=
  map str ["node_modules"; "build"; "dist"; ".next"; ".git"; ".cache"]%string.

Definition extensions : list pystr :=
  map str [".ts"; ".tsx"; ".js"; ".jsx"; ".css"; ".scss"; ".json"]%string.

(** Lines 40 and 43; [None] when [resolve] raises. *)
Definition resolved_path (env : Env) (file_path : pystr) : option pystr :=
  option_map (replace os_sep chr_slash) (resolve env file_path).

(** Lines 45 to 69: the checks, all made on [normalized_path]. *)
Definition is_relevant_path (normalized_path : pystr) : bool :=
  if existsb
       (fun excluded =>
          str_in (str "/" ++ excluded ++ str "/") normalized_path
          || endswith normalized_path (str "/" ++ excluded))
       excluded_dirs
  then false
  else if negb (existsb (fun ext => endswith normalized_path ext) extensions)
  then false
  else if endswith normalized_path (str ".test.ts")
          || endswith normalized_path (str ".test.tsx")
  then false
  else true.

(** [None] when the call raises, which it does when [resolve] does. *)
Definition is_relevant_file (env : Env) (file_path : pystr) : option bool :=
  option_map is_relevant_path (resolved_path env file_path).

(** ** get_file_priority *)

Definition priorities : list (pystr * Z) :=
  [ (str "components", 1%Z); (str "pages", 2%Z); (str "features", 3%Z);
    (str "utils", 4%Z); (str "types", 5%Z); (str "styles", 6%Z) ].

Definition normalized_path (file_path : pystr) : pystr :=
  replace os_sep chr_slash (str_Path file_path).

(** The [for key, priority in priorities.items()] loop with its [return]. *)
Fixpoint scan_priorities (table : list (pystr * Z)) (path : pystr) : Z :=
  match table with
  | [] => 99%Z
  | (key, priority) :: table' =>
      if str_in (str "/" ++ key ++ str "/") path then priority
      else scan_priorities table' path
  end.

Definition get_file_priority (self : ProjectFlattener) (file_path : pystr) : Z :=
  let path := normalized_path file_path in
  if existsb (fun p => str_in p path) (prioritize_paths self) then 0%Z
  else scan_priorities priorities path.

(** ** Regular expressions, matched the way [re] does

    A backtracking matcher in continuation-passing style: every
    alternative is tried in the order [re] tries it (a greedy repetition
    first takes as much as it can, then gives back one character at a
    time), and the first one whose continuation succeeds wins. The
    continuation receives what is left of the input and the groups closed
    so far; a group takes its number when it opens and its text when it
    closes. Repetition is over one-character sets, which is all the
    pattern of [process_imports] uses. *)

Inductive charset : Type :=
| Dot        (** [.]      anything but a newline (no DOTALL flag) *)
| Space      (** [\s]     Unicode white space *)
| Quote      (** a single or a double quote *)
| NotQuote.  (** anything but a single or a double quote *)

Definition between (lo hi c : N) : bool := N.leb lo c && N.leb c hi.

(** [\s] of a [str] pattern. *)
Definition is_space (c : N) : bool :=
  between 9 13 c || between 28 32 c || N.eqb c 133 || N.eqb c 160
  || N.eqb c 5760 || between 8192 8202 c || N.eqb c 8232 || N.eqb c 8233
  || N.eqb c 8239 || N.eqb c 8287 || N.eqb c 12288.

Definition is_quote (c : N) : bool := N.eqb c chr_squote || N.eqb c chr_dquote.

Definition in_charset (cs : charset) (c : N) : bool :=
  match cs with
  | Dot => negb (N.eqb c chr_nl)
  | Space => is_space c
  | Quote => is_quote c
  | NotQuote => negb (is_quote c)
  end.

Inductive regex : Type :=
| Lit (s : pystr)
| One (cs : charset)
| Star (cs : charset)
| Plus (cs : charset)
| Cat (r1 r2 : regex)
| Group (r : regex).

Fixpoint match_star {R : Type} (cs : charset) (s : pystr)
    (k : pystr -> option R) : option R :=
  match s with
  | c :: s' =>
      if in_charset cs c then
        match match_star cs s' k with
        | Some r => Some r
        | None => k s
        end
      else k s
  | [] => k []
  end.

(** [l[i] = v] within the list. *)
Fixpoint list_set {A : Type} (i : nat) (v : A) (l : list A) : list A :=
  match l, i with
  | [], _ => []
  | _ :: l', O => v :: l'
  | x :: l', S j => x :: list_set j v l'
  end.

Fixpoint match_re {R : Type} (r : regex) (s : pystr) (groups : list pystr)
    (k : pystr -> list pystr -> option R) : option R :=
  match r with
  | Lit l => if startswith s l then k (skipn (length l) s) groups else None
  | One cs =>
      match s with
      | c :: s' => if in_charset cs c then k s' groups else None
      | [] => None
      end
  | Star cs => match_star cs s (fun s' => k s' groups)
  | Plus cs =>
      match s with
      | c :: s' =>
          if in_charset cs c then match_star cs s' (fun s'' => k s'' groups)
          else None
      | [] => None
      end
  | Cat r1 r2 => match_re r1 s groups (fun s' groups' => match_re r2 s' groups' k)
  | Group r' =>
      match_re r' s (groups ++ [[]])
        (fun s' groups' =>
           k s' (list_set (length groups) (firstn (length s - length s') s)
                   groups'))
  end.

(** A match object: [group(0)], the numbered groups, and the input that
    follows the match. *)
Record match_obj : Type := {
  m_text : pystr;
  m_groups : list pystr;
  m_rest : pystr
}.

Definition group (m : match_obj) (i : nat) : pystr :=
  match i with
  | O => m_text m
  | S j => nth j (m_groups m) []
  end.

(** [pattern.match(s)]: a match that starts at the first character. *)
Definition re_match (r : regex) (s : pystr) : option match_obj :=
  match_re r s []
    (fun s' groups =>
       Some {| m_text := firstn (length s - length s') s;
               m_groups := groups;
               m_rest := s' |}).

(** [re.sub(pattern, repl, s)] with a function [repl], for a pattern that
    matches no empty string: left to right, the leftmost match at each
    point is replaced and the scan resumes behind it. [skip] counts the
    characters of the current match still to be passed over. *)
Fixpoint re_sub_from (r : regex) (repl : match_obj -> pystr) (skip : nat)
    (s : pystr) : pystr :=
  match s with
  | [] => []
  | c :: s' =>
      match skip with
      | S n => re_sub_from r repl n s'
      | O =>
          match re_match r s with
          | Some m =>
              match length (m_text m) with
              | O => c :: re_sub_from r repl 0 s'
              | S n => repl m ++ re_sub_from r repl n s'
              end
          | None => c :: re_sub_from r repl 0 s'
          end
      end
  end.

Definition re_sub (r : regex) (repl : match_obj -> pystr) (s : pystr) : pystr :=
  re_sub_from r repl 0 s.

(** What [re] can match: the text [a] belongs to [r], with the groups [gs]
    in the order of their opening parentheses. *)
Fixpoint Parses (r : regex) (a : pystr) (gs : list pystr) : Prop :=
  match r with
  | Lit l => a = l /\ gs = []
  | One cs => exists c, a = [c] /\ in_charset cs c = true /\ gs = []
  | Star cs => forallb (in_charset cs) a = true /\ gs = []
  | Plus cs => a <> [] /\ forallb (in_charset cs) a = true /\ gs = []
  | Cat r1 r2 =>
      exists a1 a2 g1 g2,
        a = a1 ++ a2 /\ gs = g1 ++ g2 /\ Parses r1 a1 g1 /\ Parses r2 a2 g2
  | Group r' => exists g, gs = a :: g /\ Parses r' a g
  end.

(** [pattern.search(s)]: what precedes the leftmost match, and the match. *)
Fixpoint re_search (r : regex) (s : pystr) : option (pystr * match_obj) :=
  match re_match r s with
  | Some m => Some ([], m)
  | None =>
      match s with
      | [] => None
      | c :: s' =>
          match re_search r s' with
          | Some (before, m) => Some (c :: before, m)
          | None => None
          end
      end
  end.

(** ** process_imports *)

(** The pattern of the source. Group 1: the word import, any run of
    characters of the line, the word from, white space, a quote. Group 2:
    one character of the line, then any run of characters that are not
    quotes. Group 3: a quote. *)
Definition import_pattern : regex :=
  Cat (Group (Cat (Lit (str "import"))
             (Cat (Star Dot)
             (Cat (Lit (str "from"))
             (Cat (Plus Space)
                  (One Quote))))))
 (Cat (Group (Cat (One Dot) (Star NotQuote)))
      (Group (One Quote))).

Definition replace_import (m : match_obj) : pystr :=
  let import_path := group m 2 in
  if startswith import_path (str ".") then
    str "// Original import: " ++ group m 0 ++ [chr_nl]
    ++ str "// Flattened version would be: import from '" ++ import_path
    ++ str "'"
  else group m 0.

Definition process_imports (content file_path : pystr) : pystr :=
  re_sub import_pattern replace_import content.

(** ** The files a run leaves behind *)

Record chunk_entry : Type := {
  files : list pystr;
  file_count : nat
}.

(** The dictionary [create_chunk_manifest] hands to [json.dump]. *)
Record manifest : Type := {
  manifest_project_path : pystr;
  total_chunks : nat;
  manifest_chunks : list (pystr * chunk_entry)
}.

Inductive artifact : Type :=
| TextFile (text : pystr)
| JsonFile (m : manifest)
(** what a write of [data] that raised behind [open] leaves: the first
    [written] characters of the file it was to be *)
| PartialFile (written : nat) (data : artifact).

(** [d[k] = v] on a dictionary kept in insertion order. *)
Fixpoint dict_set {V : Type} (d : list (pystr * V)) (k : pystr) (v : V)
    : list (pystr * V) :=
  match d with
  | [] => [(k, v)]
  | (k', v') :: d' =>
      if str_eqb k' k then (k', v) :: d' else (k', v') :: dict_set d' k v
  end.

Fixpoint dict_get {V : Type} (d : list (pystr * V)) (k : pystr) : option V :=
  match d with
  | [] => None
  | (k', v') :: d' => if str_eqb k' k then Some v' else dict_get d' k
  end.

(** The output directory, and how many writes the run has attempted. *)
Record world : Type := {
  disk : list (pystr * artifact);
  attempts : nat
}.

Definition empty_world : world := {| disk := []; attempts := 0 |}.

(** ** Computations that write files and may raise *)

Inductive result (A : Type) : Type :=
| Ok (a : A)
| Raise (e : exn).

Arguments Ok {A} a.
Arguments Raise {A} e.

Definition M (A : Type) : Type := world -> result A * world.

Definition ret {A : Type} (a : A) : M A := fun w => (Ok a, w).

Definition raise {A : Type} (e : exn) : M A := fun w => (Raise e, w).

Definition bind {A B : Type} (m : M A) (k : A -> M B) : M B :=
  fun w =>
    match m w with
    | (Ok a, w') => k a w'
    | (Raise e, w') => (Raise e, w')
    end.

(** [try: m  except Exception as e: handler(e)] *)
Definition try_except {A : Type} (m : M A) (handler : exn -> M A) : M A :=
  fun w =>
    match m w with
    | (Ok a, w') => (Ok a, w')
    | (Raise e, w') => handler e w'
    end.

Notation "x <- m ;; k" := (bind m (fun x => k))
  (at level 61, m at next level, right associativity).
Notation "m ;;; k" := (bind m (fun _ => k))
  (at level 61, right associativity).

(** What an attempt that raises leaves of the directory: [open(path, 'w')]
    creates or empties the file before anything is written, so only an
    attempt in which [open] itself raises leaves the directory as it was. *)
Definition after_failed_write (env : Env) (path : pystr) (data : artifact)
    (w : world) : world :=
  {| disk := match written_before_raise env (attempts w) with
             | Some written => dict_set (disk w) path (PartialFile written data)
             | None => disk w
             end;
     attempts := S (attempts w) |}.

(** [with open(path, 'w') as f: ...write...], taken as one attempt: it
    stores the whole file, replacing an older one of that name, or it
    raises on the way. *)
Definition fs_write (env : Env) (path : pystr) (data : artifact) : M unit :=
  fun w =>
    if write_raises env (attempts w) then
      (Raise WriteError, after_failed_write env path data w)
    else
      (Ok tt, {| disk := dict_set (disk w) path data;
                 attempts := S (attempts w) |}).

(** [with open(file_path, 'r', encoding='utf-8') as f: f.read()] *)
Definition open_read (env : Env) (file_path : pystr) : M pystr :=
  match read_text env file_path with
  | Some content => ret content
  | None => raise ReadError
  end.

(** ** write_chunk *)

(** Everything [write_chunk] sends to [out.write], in order. *)
Definition chunk_text (chunk_file : pystr) (chunk_contents : list (pystr * pystr))
    : pystr :=
  (str "# Chunk: " ++ chunk_file ++ [chr_nl; chr_nl])
  ++ (str "## Contained Files:" ++ [chr_nl])
  ++ concat (map (fun entry => str "- " ++ fst entry ++ [chr_nl]) chunk_contents)
  ++ ([chr_nl] ++ str_repeat 61 80 ++ [chr_nl; chr_nl])
  ++ concat (map snd chunk_contents).

Definition write_chunk (env : Env) (self : ProjectFlattener)
    (chunk_file : pystr) (chunk_contents : list (pystr * pystr)) : M unit :=
  let output_path := os_path_join (output_dir self) chunk_file in
  fs_write env output_path (TextFile (chunk_text chunk_file chunk_contents)).

(** ** create_chunk_manifest *)

Definition build_manifest (self : ProjectFlattener)
    (chunks : list (pystr * list pystr)) : manifest :=
  {| manifest_project_path := project_path self;
     total_chunks := length chunks;
     manifest_chunks :=
       map (fun item =>
              (fst item, {| files := snd item; file_count := length (snd item) |}))
           chunks |}.

Definition create_chunk_manifest (env : Env) (self : ProjectFlattener)
    (chunks : list (pystr * list pystr)) : M pystr :=
  let manifest := build_manifest self chunks in
  let manifest_path := os_path_join (output_dir self) (str "manifest.json") in
  fs_write env manifest_path (JsonFile manifest) ;;;
  ret manifest_path.

(** ** flatten *)

(** [list.sort(key=...)] is stable, and a stable sort has one possible
    result; insertion from the right computes it. *)
Fixpoint insert_by (key : pystr -> Z) (x : pystr) (l : list pystr) : list pystr :=
  match l with
  | [] => [x]
  | y :: l' => if (key x <=? key y)%Z then x :: l else y :: insert_by key x l'
  end.

Definition list_sort (key : pystr -> Z) (l : list pystr) : list pystr :=
  fold_right (insert_by key) [] l.

(** The keys never decrease along the list. *)
Fixpoint ascending (key : pystr -> Z) (l : list pystr) : Prop :=
  match l with
  | [] => True
  | x :: l' => (forall y, In y l' -> (key x <= key y)%Z) /\ ascending key l'
  end.

(** Every [os.path.join(root, file)] of the two nested [for] loops. *)
Definition walk_files (env : Env) (self : ProjectFlattener) : list pystr :=
  flat_map
    (fun triple =>
       match triple with
       | (root, _, names) => map (fun file => os_path_join root file) names
       end)
    (os_walk env (project_path self)).

(** Whether [is_relevant_file] returns [True] for a path. *)
Definition selected (env : Env) (file_path : pystr) : bool :=
  match is_relevant_file env file_path with
  | Some answer => answer
  | None => false
  end.

(** The two lists of a scan in which no call of [is_relevant_file] raises. *)
Definition all_files (env : Env) (self : ProjectFlattener) : list pystr :=
  filter (selected env) (walk_files env self).

Definition excluded_files (env : Env) (self : ProjectFlattener) : list pystr :=
  filter (fun p => negb (selected env p)) (walk_files env self).

Definition sorted_files (env : Env) (self : ProjectFlattener) : list pystr :=
  list_sort (get_file_priority self) (all_files env self).

(** The local variables of [flatten] that the loop updates. *)
Record locals : Type := {
  current_chunk : list (pystr * pystr);
  current_token_count : Z;
  chunk_number : nat;
  chunks : list (pystr * list pystr)
}.

Definition initial_locals : locals :=
  {| current_chunk := []; current_token_count := 0; chunk_number := 1;
     chunks := [] |}.

Definition chunk_name (n : nat) : pystr :=
  str "chunk_" ++ str_of_nat n ++ str ".txt".

Definition is_nonempty {A : Type} (l : list A) : bool :=
  match l with
  | [] => false
  | _ :: _ => true
  end.

Definition banner (rel_path : pystr) : pystr :=
  [chr_nl; chr_nl] ++ str_repeat 35 80 ++ [chr_nl]
  ++ str "# File: " ++ rel_path ++ [chr_nl]
  ++ str_repeat 35 80 ++ [chr_nl; chr_nl].

(** Lines 147 to 154: flush the current chunk when this file would take it
    over the budget and it is not empty. *)
Definition flush_if_over (env : Env) (self : ProjectFlattener) (st : locals)
    (file_tokens : Z) : M locals :=
  if (current_token_count st + file_tokens >? tokens_per_file self)%Z
     && is_nonempty (current_chunk st)
  then
    let chunk_file := chunk_name (chunk_number st) in
    write_chunk env self chunk_file (current_chunk st) ;;;
    ret {| current_chunk := [];
           current_token_count := 0;
           chunk_number := S (chunk_number st);
           chunks := dict_set (chunks st) chunk_file
                       (map fst (current_chunk st)) |}
  else ret st.

(** Lines 156 and 157. *)
Definition append_file (st : locals) (rel_path file_content : pystr)
    (file_tokens : Z) : locals :=
  {| current_chunk := current_chunk st ++ [(rel_path, file_content)];
     current_token_count := (current_token_count st + file_tokens)%Z;
     chunk_number := chunk_number st;
     chunks := chunks st |}.

(** One turn of the loop over [all_files]. The [try] spans the read, the
    flush and the append; its handler only prints. *)
Definition process_file (env : Env) (self : ProjectFlattener) (st : locals)
    (file_path : pystr) : M locals :=
  let rel_path := relpath env file_path (project_path self) in
  try_except
    (content <- open_read env file_path ;;
     let processed_content := process_imports content file_path in
     let file_content := banner rel_path ++ processed_content in
     let file_tokens := estimate_tokens env file_content in
     st1 <- flush_if_over env self st file_tokens ;;
     ret (append_file st1 rel_path file_content file_tokens))
    (fun _ => ret st).

Fixpoint for_each {A S : Type} (body : S -> A -> M S) (l : list A) (st : S)
    : M S :=
  match l with
  | [] => ret st
  | x :: l' => st' <- body st x ;; for_each body l' st'
  end.

(** Lines 164 to 168: the flush after the loop, outside any [try]. *)
Definition final_flush (env : Env) (self : ProjectFlattener) (st : locals)
    : M locals :=
  if is_nonempty (current_chunk st) then
    let chunk_file := chunk_name (chunk_number st) in
    write_chunk env self chunk_file (current_chunk st) ;;;
    ret {| current_chunk := current_chunk st;
           current_token_count := current_token_count st;
           chunk_number := chunk_number st;
           chunks := dict_set (chunks st) chunk_file
                       (map fst (current_chunk st)) |}
  else ret st.

Definition pack (env : Env) (self : ProjectFlattener) (paths : list pystr)
    : M locals :=
  for_each (process_file env self) paths initial_locals.

(** Lines 113 to 117: one turn of the scan, on the lists [all_files] and
    [excluded_files] built so far. The call of [is_relevant_file] stands
    in no [try]: when it raises, the run ends. *)
Definition scan_file (env : Env) (lists : list pystr * list pystr)
    (file_path : pystr) : M (list pystr * list pystr) :=
  match is_relevant_file env file_path with
  | Some true => ret (fst lists ++ [file_path], snd lists)
  | Some false => ret (fst lists, snd lists ++ [file_path])
  | None => raise ResolveError
  end.

(** Lines 108 to 117. *)
Definition scan (env : Env) (self : ProjectFlattener)
    : M (list pystr * list pystr) :=
  for_each (scan_file env) (walk_files env self) ([], []).

Definition flatten (env : Env) (self : ProjectFlattener)
    : M (list (pystr * list pystr)) :=
  lists <- scan env self ;;
  st <- pack env self (list_sort (get_file_priority self) (fst lists)) ;;
  st' <- final_flush env self st ;;
  create_chunk_manifest env self (chunks st') ;;;
  ret (chunks st').

(** ** Vocabulary of the statements *)

(** The path and the annotated content [flatten] stores for a file. *)
Definition rel_path_of (env : Env) (self : ProjectFlattener) (file_path : pystr)
    : pystr :=
  relpath env file_path (project_path self).

Definition file_content_of (env : Env) (self : ProjectFlattener)
    (file_path content : pystr) : pystr :=
  banner (rel_path_of env self file_path) ++ process_imports content file_path.

(** The token cost of the entries of a chunk. *)
Definition chunk_tokens (env : Env) (chunk : list (pystr * pystr)) : Z :=
  fold_right (fun entry total => (estimate_tokens env (snd entry) + total)%Z)
    0%Z chunk.

(** [l] is [l'] with some elements left out. *)
Inductive Subseq {A : Type} : list A -> list A -> Prop :=
| Subseq_nil : Subseq [] []
| Subseq_keep (x : A) (l l' : list A) : Subseq l l' -> Subseq (x :: l) (x :: l')
| Subseq_skip (x : A) (l l' : list A) : Subseq l l' -> Subseq l (x :: l').

(** [x] stands somewhere in front of [y] in [l]. *)
Definition Before {A : Type} (x y : A) (l : list A) : Prop :=
  exists l1 l2 l3, l = l1 ++ x :: l2 ++ y :: l3.

(** No call of [is_relevant_file] of the scan raises. *)
Definition Resolves (env : Env) (self : ProjectFlattener) : Prop :=
  forall p, In p (walk_files env self) -> resolve env p <> None.

(** The state [flatten] is in after its loop has gone through [paths]. *)
Definition Packed (env : Env) (self : ProjectFlattener) (paths : list pystr)
    (w0 : world) (st : locals) (w : world) : Prop :=
  pack env self paths w0 = (Ok st, w).

(** ** Environments and objects used in examples *)

Definition plain_env : Env :=
  {| os_walk := fun _ => [];
     resolve := fun p => Some p;
     relpath := fun p start => skipn (length start + 1) p;
     read_text := fun _ => None;
     encode := fun _ => None;
     write_raises := fun _ => false;
     written_before_raise := fun _ => None |}.

Definition demo_flattener (budget : Z) (paths : list pystr) : ProjectFlattener :=
  {| project_path := str "/p";
     output_dir := str "flattened_output";
     tokens_per_file := budget;
     prioritize_paths := paths |}.

Definition with_prioritize_paths (self : ProjectFlattener) (paths : list pystr)
    : ProjectFlattener :=
  {| project_path := project_path self;
     output_dir := output_dir self;
     tokens_per_file := tokens_per_file self;
     prioritize_paths := paths |}.

(** A project directory [/p] holding the files [names], each with the
    one-character content [x]; no tokenizer is installed, so costs come
    from the length of the text; [raises] tells which writes fail, and a
    write that fails does so behind the first line of the file. *)
Definition demo_env (names : list pystr) (unreadable : list pystr)
    (raises : nat -> bool) : Env :=
  {| os_walk := fun top => [(top, [], names)];
     resolve := fun p => Some p;
     relpath := fun p start => skipn (length start + 1) p;
     read_text :=
       fun p => if existsb (fun u => str_eqb p (str "/p/" ++ u)) unreadable
                then None else Some (str "x");
     encode := fun _ => None;
     write_raises := raises;
     written_before_raise := fun _ => Some 22 |}.

(** A chunk of two or more entries costs no more than the budget. *)
Definition WithinBudget (env : Env) (self : ProjectFlattener)
    (chunk : list (pystr * pystr)) : Prop :=
  2 <= length chunk -> (chunk_tokens env chunk <= tokens_per_file self)%Z.

(** What holds of the chunk under construction at every point of the
    loop: the counter is the cost of its entries, and the chunk is within
    the budget as soon as it has two entries. *)
Definition BudgetInv (env : Env) (self : ProjectFlattener) (st : locals) : Prop :=
  current_token_count st = chunk_tokens env (current_chunk st)
  /\ WithinBudget env self (current_chunk st).

(** An entry as the loop builds it: the relative path of a file that could
    be read, with its banner and its annotated content. *)
Definition GoodEntry (env : Env) (self : ProjectFlattener)
    (entry : pystr * pystr) : Prop :=
  exists file_path content,
    read_text env file_path = Some content
    /\ entry = (rel_path_of env self file_path,
                file_content_of env self file_path content).

Definition EntriesInv (env : Env) (self : ProjectFlattener) (st : locals) : Prop :=
  Forall (GoodEntry env self) (current_chunk st).

(** The names in [chunks] are those of the chunk numbers already used. *)
Definition KeysInv (st : locals) : Prop :=
  forall k, In k (map fst (chunks st)) ->
            exists j, j < chunk_number st /\ k = chunk_name j.

(** Every chunk recorded in [listed] is on disk: its file holds what
    [write_chunk] makes of entries whose paths are the recorded ones, in
    the recorded order; those entries are within the budget and each is
    the annotated content of a file. *)
Definition DiskInv (env : Env) (self : ProjectFlattener)
    (listed : list (pystr * list pystr)) (w : world) : Prop :=
  forall name paths,
    In (name, paths) listed ->
    exists contents,
      dict_get (disk w) (os_path_join (output_dir self) name)
      = Some (TextFile (chunk_text name contents))
      /\ map fst contents = paths
      /\ WithinBudget env self contents
      /\ Forall (GoodEntry env self) contents.

(** The files packed so far, in order: those of the flushed chunks, then
    those of the chunk under construction. They are [packed], a selection
    of the paths the loop has gone through. *)
Definition OrderInv (env : Env) (self : ProjectFlattener)
    (processed : list pystr) (st : locals) (w : world) : Prop :=
  BudgetInv env self st
  /\ EntriesInv env self st
  /\ KeysInv st
  /\ DiskInv env self (chunks st) w
  /\ exists packed,
       Subseq packed processed
       /\ concat (map snd (chunks st)) ++ map fst (current_chunk st)
          = map (rel_path_of env self) packed.

(** The three ways the flush check of one turn can end. *)
Inductive flush_outcome (env : Env) (self : ProjectFlattener) (st : locals)
    (file_tokens : Z) (w : world) : result locals * world -> Prop :=
| flush_not_needed :
    (current_token_count st + file_tokens <= tokens_per_file self)%Z
    \/ current_chunk st = [] ->
    flush_outcome env self st file_tokens w (Ok st, w)
| flush_done :
    (current_token_count st + file_tokens > tokens_per_file self)%Z ->
    current_chunk st <> [] ->
    write_raises env (attempts w) = false ->
    flush_outcome env self st file_tokens w
      (Ok {| current_chunk := [];
             current_token_count := 0;
             chunk_number := S (chunk_number st);
             chunks := dict_set (chunks st) (chunk_name (chunk_number st))
                         (map fst (current_chunk st)) |},
       {| disk := dict_set (disk w)
                    (os_path_join (output_dir self) (chunk_name (chunk_number st)))
                    (TextFile (chunk_text (chunk_name (chunk_number st))
                                 (current_chunk st)));
          attempts := S (attempts w) |})
| flush_failed :
    (current_token_count st + file_tokens > tokens_per_file self)%Z ->
    current_chunk st <> [] ->
    write_raises env (attempts w) = true ->
    flush_outcome env self st file_tokens w
      (Raise WriteError,
       after_failed_write env
         (os_path_join (output_dir self) (chunk_name (chunk_number st)))
         (TextFile (chunk_text (chunk_name (chunk_number st)) (current_chunk st)))
         w).

(** Whether [open(...).read()] returns for a path. *)
Definition readable (env : Env) (file_path : pystr) : bool :=
  match read_text env file_path with
  | Some _ => true
  | None => false
  end.

(** The runs used in examples: [/p] holds [a.ts] and [b.ts], or those and
    [c.ts]. *)
Definition two_files_env (raises : nat -> bool) : Env :=
  demo_env [str "a.ts"; str "b.ts"] [] raises.

Definition three_files_env (raises : nat -> bool) : Env :=
  demo_env [str "a.ts"; str "b.ts"; str "c.ts"] [] raises.

Definition never_raises (n : nat) : bool := false.

Definition first_write_raises (n : nat) : bool := Nat.eqb n 0.

(** ** Segments of a path *)

(** The segments of a path after its first one. *)
Definition later_segments (path : pystr) : list pystr :=
  tl (split chr_slash path).

(** The segments of a path that are neither its first nor its last. *)
Definition inner_segments (path : pystr) : list pystr :=
  removelast (later_segments path).

(** The first table entry whose name is among [segments], else 99. *)
Definition first_listed (table : list (pystr * Z)) (segments : list pystr) : Z :=
  match find (fun item => existsb (str_eqb (fst item)) segments) table with
  | Some (_, priority) => priority
  | None => 99%Z
  end.

(** ** Names of the chunks *)

(** The chunks recorded so far are [chunk_1.txt] to [chunk_n.txt] in this
    order, none of them empty, and the next number to use is n + 1. *)
Definition NamesInv (st : locals) : Prop :=
  chunk_number st = S (length (chunks st))
  /\ map fst (chunks st) = map chunk_name (seq 1 (length (chunks st)))
  /\ Forall (fun item => snd item <> []) (chunks st).

(** Where [create_chunk_manifest] stores the manifest. *)
Definition manifest_path (self : ProjectFlattener) : pystr :=
  os_path_join (output_dir self) (str "manifest.json").

(** Where [write_chunk] stores the chunk of a number. *)
Definition chunk_path (self : ProjectFlattener) (n : nat) : pystr :=
  os_path_join (output_dir self) (chunk_name n).

(** ** The constructor and the script *)

(** The fields [__init__] sets, for a given [os.path.abspath]: a keyword
    argument left out takes its default, and [prioritize_paths or []]
    turns [None] into the empty list. *)
Definition init (abspath : pystr -> pystr) (path : pystr)
    (dir : option pystr) (tokens : option Z) (paths : option (list pystr))
    : ProjectFlattener :=
  {| project_path := abspath path;
     output_dir := match dir with
                   | Some d => d
                   | None => str "flattened_output"
                   end;
     tokens_per_file := match tokens with
                        | Some n => n
                        | None => 150000%Z
                        end;
     prioritize_paths := match paths with
                         | Some l => l
                         | None => []
                         end |}.

(** The list [priorities] of the [__main__] block. *)
Definition main_priorities : list pystr :=
  [str "src/components"; str "src/pages"; str "src/features"].

(** The object the [__main__] block constructs from the path entered. *)
Definition main_flattener (abspath : pystr -> pystr) (entered : pystr)
    : ProjectFlattener :=
  init abspath entered None (Some 150000%Z) (Some main_priorities).

(** A project that lies below a directory named [build]: [/srv/build/p]
    holds [a.ts], which can be read. *)
Definition nested_env : Env :=
  {| os_walk := fun top => [(top, [], [str "a.ts"])];
     resolve := fun p => Some p;
     relpath := fun p start => skipn (length start + 1) p;
     read_text := fun _ => Some (str "x");
     encode := fun _ => None;
     write_raises := fun _ => false;
     written_before_raise := fun _ => None |}.

Definition nested_flattener : ProjectFlattener :=
  {| project_path := str "/srv/build/p";
     output_dir := str "flattened_output";
     tokens_per_file := 100;
     prioritize_paths := [] |}.

(** A tree without symbolic links in which [/a/node_modules] is a
    directory: [resolve] takes the segment [..] and the one before it out
    of the path used in the example, and leaves an absolute path without
    such a segment as it is. *)
Definition dotdot_env : Env :=
  {| os_walk := fun _ => [];
     resolve := fun p => if str_eqb p (str "/a/node_modules/../b.ts")
                         then Some (str "/a/b.ts") else Some p;
     relpath := fun p start => skipn (length start + 1) p;
     read_text := fun _ => Some (str "x");
     encode := fun _ => None;
     write_raises := fun _ => false;
     written_before_raise := fun _ => None |}.

(** The project [/p] holds [a.ts] and the symbolic link [loop.ts], which
    points to itself: the walk lists it among the files, and [resolve]
    raises on it. *)
Definition loop_env : Env :=
  {| os_walk := fun top => [(top, [], [str "a.ts"; str "loop.ts"])];
     resolve := fun p => if str_eqb p (str "/p/loop.ts") then None else Some p;
     relpath := fun p start => skipn (length start + 1) p;
     read_text := fun _ => Some (str "x");
     encode := fun _ => None;
     write_raises := fun _ => false;
     written_before_raise := fun _ => None |}.

(** The project [/p] holds [z.ts] and [y.ts], and [b.ts] and [a.ts] in its
    directory [components]; the walk yields them in this order. *)
Definition mixed_env (raises : nat -> bool) : Env :=
  {| os_walk := fun top =>
       [(top, [str "components"], [str "z.ts"; str "y.ts"]);
        (top ++ str "/components", [], [str "b.ts"; str "a.ts"])];
     resolve := fun p => Some p;
     relpath := fun p start => skipn (length start + 1) p;
     read_text := fun _ => Some (str "x");
     encode := fun _ => None;
     write_raises := raises;
     written_before_raise := fun _ => Some 22 |}.

(** * Properties *)

(** * String predicates *)

Lemma startswith_Prefix (s p : pystr) : startswith s p = true <-> Prefix p s.
Proof.
  revert s; induction p as [|c p IH]; intros s; simpl.
  - split; [intros _; exists s; reflexivity | intros _; reflexivity].
  - destruct s as [|d s].
    + split; [discriminate | intros [t Ht]; discriminate].
    + rewrite andb_true_iff, N.eqb_eq, IH. split.
      * intros [-> [t ->]]. exists t. reflexivity.
      * intros [t Ht]. injection Ht as -> ->. split; [reflexivity | exists t; reflexivity].
Qed.

Lemma endswith_Suffix (s p : pystr) : endswith s p = true <-> Suffix p s.
Proof.
  unfold endswith. rewrite startswith_Prefix. split.
  - intros [t Ht]. exists (rev t).
    rewrite <- (rev_involutive s), Ht, rev_app_distr, rev_involutive. reflexivity.
  - intros [t ->]. exists (rev t). apply rev_app_distr.
Qed.

Lemma Infix_cons_inv (p : pystr) (c : N) (s : pystr) :
  Infix p (c :: s) -> Prefix p (c :: s) \/ Infix p s.
Proof.
  intros [a [b H]]. destruct a as [|x a].
  - left. exists b. exact H.
  - right. injection H as _ H. exists a, b. exact H.
Qed.

Lemma str_in_Infix (p s : pystr) : str_in p s = true <-> Infix p s.
Proof.
  induction s as [|c s IH]; simpl.
  - rewrite orb_false_r, startswith_Prefix. split.
    + intros [t Ht]. exists [], t. exact Ht.
    + intros [a [b H]]. destruct a; [exists b; exact H | discriminate].
  - rewrite orb_true_iff, startswith_Prefix, IH. split.
    + intros [[t Ht] | [a [b H]]].
      * exists [], t. exact Ht.
      * exists (c :: a), b. simpl. rewrite H. reflexivity.
    + apply Infix_cons_inv.
Qed.

Lemma str_in_false (p s : pystr) : str_in p s = false <-> ~ Infix p s.
Proof.
  rewrite <- str_in_Infix. destruct (str_in p s); split; congruence.
Qed.

Lemma replace_same (c : N) (s : pystr) : replace c c s = s.
Proof.
  unfold replace. induction s as [|x s IH]; simpl; [reflexivity|].
  rewrite IH. destruct (N.eqb_spec x c); congruence.
Qed.

Lemma str_eqb_eq (a b : pystr) : str_eqb a b = true <-> a = b.
Proof.
  revert b; induction a as [|x a IH]; intros [|y b]; simpl;
    try (split; [reflexivity || discriminate | reflexivity || discriminate]).
  rewrite andb_true_iff, N.eqb_eq, IH. split.
  - intros [-> ->]. reflexivity.
  - intros H. injection H as -> ->. split; reflexivity.
Qed.

Ltac case_if :=
  match goal with
  | |- (if ?b then _ else _) = _ => destruct b eqn:?
  end.

(** * The selector *)

(** C6, as stated, fails: the path handed over contains [/node_modules/]
    and the function accepts it, for it inspects the resolved path, in
    which the segment [..] and the one before it are gone. *)
Lemma is_relevant_file_counterexample :
  Infix (str "/node_modules/") (str "/a/node_modules/../b.ts")
  /\ resolve dotdot_env (str "/a/node_modules/../b.ts") = Some (str "/a/b.ts")
  /\ is_relevant_file dotdot_env (str "/a/node_modules/../b.ts") = Some true.
Proof.
  split; [|split; reflexivity].
  exists (str "/a"), (str "../b.ts"). reflexivity.
Qed.

(** C6, amended. The three rejections hold of the resolved path with
    forward slashes, which is the path the function inspects, not of the
    path handed over: when [resolve] returns, [is_relevant_file] answers
    [False] if an excluded directory name stands in the resolved path
    between two slashes or, after a slash, at its end; if the resolved
    path ends in none of the seven extensions; and if it ends in
    [.test.ts] or [.test.tsx]. When [resolve] raises, so does the call. *)
Theorem is_relevant_file_rejects (env : Env) (file_path : pystr) :
  (resolve env file_path = None -> is_relevant_file env file_path = None)
  /\ forall resolved,
       resolve env file_path = Some resolved ->
       let path := replace os_sep chr_slash resolved in
       ((exists excluded,
            In excluded
               (map str ["node_modules"; "build"; "dist"; ".next"; ".git";
                         ".cache"]%string)
            /\ (Infix (str "/" ++ excluded ++ str "/") path
                \/ Suffix (str "/" ++ excluded) path)) ->
         is_relevant_file env file_path = Some false)
       /\ ((forall ext,
              In ext (map str [".ts"; ".tsx"; ".js"; ".jsx"; ".css"; ".scss";
                               ".json"]%string) ->
              ~ Suffix ext path) ->
           is_relevant_file env file_path = Some false)
       /\ (Suffix (str ".test.ts") path \/ Suffix (str ".test.tsx") path ->
           is_relevant_file env file_path = Some false).
Proof.
  unfold is_relevant_file, resolved_path. split.
  - intros ->. reflexivity.
  - intros resolved Hres. rewrite Hres. cbn [option_map].
    set (path := replace os_sep chr_slash resolved). unfold is_relevant_path.
    split; [|split].
    + intros [excluded [Hin Hocc]]. f_equal.
      assert (E : existsb
                    (fun excluded0 =>
                       str_in (str "/" ++ excluded0 ++ str "/") path
                       || endswith path (str "/" ++ excluded0)) excluded_dirs = true).
      { apply existsb_exists. exists excluded. split; [exact Hin|].
        apply orb_true_iff. destruct Hocc as [H | H].
        - left. apply str_in_Infix. exact H.
        - right. apply endswith_Suffix. exact H. }
      rewrite E. reflexivity.
    + intros Hext. f_equal.
      case_if; [reflexivity|].
      assert (E : existsb (fun ext => endswith path ext) extensions = false).
      { apply not_true_is_false. intros H. apply existsb_exists in H.
        destruct H as [ext [Hin H]]. apply endswith_Suffix in H.
        exact (Hext ext Hin H). }
      rewrite E. reflexivity.
    + intros Htest. f_equal.
      case_if; [reflexivity|].
      case_if; [reflexivity|].
      assert (E : endswith path (str ".test.ts") || endswith path (str ".test.tsx") = true).
      { apply orb_true_iff. destruct Htest as [H | H]; [left | right];
          apply endswith_Suffix; exact H. }
      rewrite E. reflexivity.
Qed.

Lemma is_relevant_file_rejects_witness :
  is_relevant_file plain_env (str "/a/node_modules/b.ts") = Some false
  /\ is_relevant_file plain_env (str "/a/b.md") = Some false
  /\ is_relevant_file plain_env (str "/a/b.test.tsx") = Some false
  /\ is_relevant_file loop_env (str "/p/loop.ts") = None.
Proof.
  split; [|split; [|split]].
  - apply (proj1 (proj2 (is_relevant_file_rejects plain_env (str "/a/node_modules/b.ts"))
                    (str "/a/node_modules/b.ts") eq_refl)).
    exists (str "node_modules"). split; [simpl; auto|].
    left. exists (str "/a"), (str "b.ts"). reflexivity.
  - apply (proj1 (proj2 (proj2 (is_relevant_file_rejects plain_env (str "/a/b.md"))
                           (str "/a/b.md") eq_refl))).
    intros ext Hin H. apply endswith_Suffix in H.
    simpl in Hin. repeat (destruct Hin as [<- | Hin]; [vm_compute in H; discriminate|]).
    exact Hin.
  - apply (proj2 (proj2 (proj2 (is_relevant_file_rejects plain_env (str "/a/b.test.tsx"))
                           (str "/a/b.test.tsx") eq_refl))).
    right. exists (str "/a/b"). reflexivity.
  - apply (proj1 (is_relevant_file_rejects loop_env (str "/p/loop.ts"))).
    reflexivity.
Defined.

(** * The ranker *)

Lemma scan_priorities_first (table before after : list (pystr * Z))
    (key : pystr) (priority : Z) (path : pystr) :
  table = before ++ (key, priority) :: after ->
  Infix (str "/" ++ key ++ str "/") path ->
  (forall key' priority', In (key', priority') before ->
     ~ Infix (str "/" ++ key' ++ str "/") path) ->
  scan_priorities table path = priority.
Proof.
  intros -> Hkey.
  induction before as [|[k v] before IH]; intros Hnone; cbn [scan_priorities app].
  - apply str_in_Infix in Hkey. rewrite Hkey. reflexivity.
  - assert (E : str_in (str "/" ++ k ++ str "/") path = false).
    { apply str_in_false. apply (Hnone k v). left. reflexivity. }
    rewrite E. apply IH. intros k' v' Hin. apply (Hnone k' v'). right. exact Hin.
Qed.

Lemma scan_priorities_none (table : list (pystr * Z)) (path : pystr) :
  (forall key priority, In (key, priority) table ->
     ~ Infix (str "/" ++ key ++ str "/") path) ->
  scan_priorities table path = 99%Z.
Proof.
  induction table as [|[k v] table IH]; intros Hnone; cbn [scan_priorities];
    [reflexivity|].
  assert (E : str_in (str "/" ++ k ++ str "/") path = false).
  { apply str_in_false. apply (Hnone k v). left. reflexivity. }
  rewrite E. apply IH. intros k' v' Hin. apply (Hnone k' v'). right. exact Hin.
Qed.

Lemma scan_priorities_range (table : list (pystr * Z)) (path : pystr) :
  Forall (fun item => (0 <= snd item <= 99)%Z) table ->
  (0 <= scan_priorities table path <= 99)%Z.
Proof.
  induction 1 as [|[k v] table Hv _ IH]; cbn [scan_priorities]; [lia|].
  destruct (str_in _ path); [exact Hv | exact IH].
Qed.

Lemma priorities_range : Forall (fun item => (0 <= snd item <= 99)%Z) priorities.
Proof. repeat constructor; simpl; lia. Qed.

Lemma prioritized_existsb (paths : list pystr) (path : pystr) :
  existsb (fun p => str_in p path) paths = true <->
  exists p, In p paths /\ Infix p path.
Proof.
  rewrite existsb_exists. split; intros [p [Hin H]]; exists p; split;
    try exact Hin; apply str_in_Infix; exact H.
Qed.

Lemma not_prioritized_existsb (paths : list pystr) (path : pystr) :
  (forall p, In p paths -> ~ Infix p path) ->
  existsb (fun p => str_in p path) paths = false.
Proof.
  intros Hnone. apply not_true_is_false. intros H.
  apply prioritized_existsb in H. destruct H as [p [Hin H]].
  exact (Hnone p Hin H).
Qed.

(** C7, as stated, fails: [./components/Foo.ts] contains [/components/]
    and gets 99, not 1; and with [./src] configured,
    [./src/components/Foo.ts] contains that string and gets 1, not 0. The
    function inspects [str(Path(file_path))], in which the leading [./]
    is gone. *)
Lemma get_file_priority_counterexample :
  Infix (str "/components/") (str "./components/Foo.ts")
  /\ get_file_priority (demo_flattener 150000 []) (str "./components/Foo.ts") = 99%Z
  /\ Infix (str "./src") (str "./src/components/Foo.ts")
  /\ get_file_priority (demo_flattener 150000 [str "./src"])
       (str "./src/components/Foo.ts") = 1%Z.
Proof.
  split; [|split; [|split]]; try reflexivity.
  - exists (str "."), (str "Foo.ts"). reflexivity.
  - exists [], (str "/components/Foo.ts"). reflexivity.
Qed.

(** C7, amended. The cases hold of the normalised path,
    [str(Path(file_path))] with forward slashes, not of the path handed
    over: [get_file_priority] gives 0 when a configured substring occurs
    in the normalised path; otherwise the value of the first entry of the
    table components 1, pages 2, features 3, utils 4, types 5, styles 6
    whose name occurs in it between two slashes; otherwise 99. The result
    lies between 0 and 99; [src/components/Foo.ts] has priority 1 with no
    configured list and 0 when [src/components] is configured; and
    [./components/Foo.ts], normalised to [components/Foo.ts], has
    priority 99. *)
Theorem get_file_priority_cases (self : ProjectFlattener) (file_path : pystr) :
  let path := normalized_path file_path in
  let result := get_file_priority self file_path in
  let table :=
    [ (str "components", 1%Z); (str "pages", 2%Z); (str "features", 3%Z);
      (str "utils", 4%Z); (str "types", 5%Z); (str "styles", 6%Z) ] in
  ((exists p, In p (prioritize_paths self) /\ Infix p path) -> result = 0%Z)
  /\ ((forall p, In p (prioritize_paths self) -> ~ Infix p path) ->
      forall before key priority after,
        table = before ++ (key, priority) :: after ->
        Infix (str "/" ++ key ++ str "/") path ->
        (forall key' priority', In (key', priority') before ->
           ~ Infix (str "/" ++ key' ++ str "/") path) ->
        result = priority)
  /\ ((forall p, In p (prioritize_paths self) -> ~ Infix p path) ->
      (forall key priority, In (key, priority) table ->
         ~ Infix (str "/" ++ key ++ str "/") path) ->
      result = 99%Z)
  /\ (0 <= result <= 99)%Z
  /\ get_file_priority (with_prioritize_paths self []) (str "src/components/Foo.ts") = 1%Z
  /\ get_file_priority (with_prioritize_paths self [str "src/components"])
       (str "src/components/Foo.ts") = 0%Z
  /\ normalized_path (str "./components/Foo.ts") = str "components/Foo.ts"
  /\ get_file_priority (with_prioritize_paths self []) (str "./components/Foo.ts")
     = 99%Z.
Proof.
  intros path result table. subst result. unfold get_file_priority. fold path.
  repeat split.
  - intros H. apply prioritized_existsb in H. rewrite H. reflexivity.
  - intros Hnone before key priority after Htable Hkey Hfirst.
    rewrite (not_prioritized_existsb _ _ Hnone).
    exact (scan_priorities_first _ _ _ _ _ _ Htable Hkey Hfirst).
  - intros Hnone Htable.
    rewrite (not_prioritized_existsb _ _ Hnone).
    apply scan_priorities_none. exact Htable.
  - destruct (existsb _ _); [lia|].
    apply (scan_priorities_range priorities path priorities_range).
  - destruct (existsb _ _); [lia|].
    apply (scan_priorities_range priorities path priorities_range).
Qed.

Lemma get_file_priority_cases_witness :
  get_file_priority (demo_flattener 150000 [str "src/pages"]) (str "src/pages/utils/a.ts") = 0%Z
  /\ get_file_priority (demo_flattener 150000 [str "src/pages"]) (str "lib/utils/pages/a.ts") = 2%Z
  /\ get_file_priority (demo_flattener 150000 [str "src/pages"]) (str "lib/a.ts") = 99%Z.
Proof.
  pose (self := demo_flattener 150000 [str "src/pages"]).
  assert (Hnot : forall file_path,
            str_in (str "src/pages") (normalized_path file_path) = false ->
            forall p, In p (prioritize_paths self) ->
                      ~ Infix p (normalized_path file_path)).
  { intros file_path E p [<- | []]. apply str_in_false. exact E. }
  split; [|split].
  - apply (proj1 (get_file_priority_cases self (str "src/pages/utils/a.ts"))).
    exists (str "src/pages"). split; [left; reflexivity|].
    exists [], (str "/utils/a.ts"). reflexivity.
  - apply (proj1 (proj2 (get_file_priority_cases self (str "lib/utils/pages/a.ts")))
             (Hnot (str "lib/utils/pages/a.ts") eq_refl)
             [(str "components", 1%Z)] (str "pages") 2%Z
             [(str "features", 3%Z); (str "utils", 4%Z); (str "types", 5%Z);
              (str "styles", 6%Z)]).
    + reflexivity.
    + exists (str "lib/utils"), (str "a.ts"). reflexivity.
    + intros key' priority' [H | []]. injection H as <- _.
      apply str_in_false. reflexivity.
  - apply (proj1 (proj2 (proj2 (get_file_priority_cases self (str "lib/a.ts"))))
             (Hnot (str "lib/a.ts") eq_refl)).
    intros key priority Hin. apply str_in_false.
    simpl in Hin.
    repeat (destruct Hin as [H | Hin]; [injection H as <- _; reflexivity|]).
    destruct Hin.
Defined.

(** C9. With the empty string among [prioritize_paths], every path gets
    priority 0: the table and the default 99 are never reached. *)
Theorem empty_prioritize_path_gives_zero (self : ProjectFlattener) :
  In [] (prioritize_paths self) ->
  forall file_path, get_file_priority self file_path = 0%Z.
Proof.
  intros Hin file_path. unfold get_file_priority.
  assert (E : existsb (fun p => str_in p (normalized_path file_path))
                (prioritize_paths self) = true).
  { apply prioritized_existsb. exists []. split; [exact Hin|].
    exists [], (normalized_path file_path). reflexivity. }
  rewrite E. reflexivity.
Qed.

Lemma empty_prioritize_path_gives_zero_witness :
  get_file_priority (demo_flattener 150000 [str "src/pages"; str ""])
    (str "docs/notes.txt") = 0%Z
  /\ scan_priorities priorities (normalized_path (str "docs/notes.txt")) = 99%Z.
Proof.
  split.
  - apply (empty_prioritize_path_gives_zero
             (demo_flattener 150000 [str "src/pages"; str ""])).
    simpl. right. left. reflexivity.
  - reflexivity.
Defined.

(** * Normalised paths *)

Lemma Infix_app_l (p a s : pystr) : Infix p s -> Infix p (a ++ s).
Proof.
  intros [x [y ->]]. exists (a ++ x), y. rewrite <- app_assoc. reflexivity.
Qed.

Lemma Infix_length (p s : pystr) : Infix p s -> length p <= length s.
Proof. intros [a [b ->]]. rewrite !length_app. lia. Qed.

Lemma Infix_skip (c : N) (q d rest : pystr) :
  ~ In c d -> Infix (c :: q) (d ++ rest) -> Infix (c :: q) rest.
Proof.
  induction d as [|x d IH]; intros Hd H; [exact H|].
  simpl in H. apply Infix_cons_inv in H. destruct H as [[t Ht] | H].
  - injection Ht as Hx _. exfalso. apply Hd. left. exact Hx.
  - apply IH; [|exact H]. intros Hin. apply Hd. right. exact Hin.
Qed.

Lemma app_sep_inj (c : N) (a b x y : pystr) :
  ~ In c a -> ~ In c b -> a ++ c :: x = b ++ c :: y -> a = b /\ x = y.
Proof.
  revert b. induction a as [|u a IH]; intros [|v b] Ha Hb H; simpl in H.
  - injection H as ->. split; reflexivity.
  - injection H as Hv _. exfalso. apply Hb. left. symmetry. exact Hv.
  - injection H as Hu _. exfalso. apply Ha. left. exact Hu.
  - injection H as -> H. destruct (IH b) as [-> ->]; try exact H.
    + intros Hin. apply Ha. right. exact Hin.
    + intros Hin. apply Hb. right. exact Hin.
    + split; reflexivity.
Qed.

Lemma split_not_nil (sep : N) (s : pystr) : split sep s <> [].
Proof.
  induction s as [|c s IH]; simpl; [discriminate|].
  destruct (N.eqb c sep); [discriminate|].
  destruct (split sep s); discriminate.
Qed.

Lemma split_sepfree_app (sep : N) (d rest : pystr) :
  ~ In sep d -> split sep (d ++ sep :: rest) = d :: split sep rest.
Proof.
  induction d as [|c d IH]; intros Hd; simpl.
  - rewrite N.eqb_refl. reflexivity.
  - destruct (N.eqb_spec c sep) as [E | _].
    + exfalso. apply Hd. left. exact E.
    + rewrite IH; [reflexivity|]. intros Hin. apply Hd. right. exact Hin.
Qed.

Lemma join_cons (sep p : pystr) (l : list pystr) :
  l <> [] -> join sep (p :: l) = p ++ sep ++ join sep l.
Proof. destruct l; [congruence | reflexivity]. Qed.

Lemma join_split (sep : N) (s : pystr) : join [sep] (split sep s) = s.
Proof.
  induction s as [|c s IH]; [reflexivity|].
  cbn [split]. destruct (N.eqb_spec c sep) as [-> | _].
  - rewrite join_cons by apply split_not_nil. rewrite IH. reflexivity.
  - destruct (split sep s) as [|w ws] eqn:E; [exfalso; exact (split_not_nil _ _ E)|].
    destruct ws as [|w' ws].
    + simpl in IH |- *. rewrite IH. reflexivity.
    + rewrite join_cons in IH |- * by discriminate.
      simpl. rewrite <- IH. reflexivity.
Qed.

Lemma split_parts_sepfree (sep : N) (s : pystr) :
  Forall (fun w => ~ In sep w) (split sep s).
Proof.
  induction s as [|c s IH]; simpl.
  - constructor; [intros []|constructor].
  - destruct (N.eqb_spec c sep) as [-> | Hc].
    + constructor; [intros []|exact IH].
    + destruct (split sep s) as [|w ws]; [repeat constructor; intros [H | []]; congruence|].
      inversion IH as [|? ? Hw Hws]; subst. constructor; [|exact Hws].
      intros [H | H]; [congruence | exact (Hw H)].
Qed.

Lemma filter_cons_inv {A : Type} (f : A -> bool) (l : list A) (a : A) (l' : list A) :
  filter f l = a :: l' ->
  exists m1 m2, l = m1 ++ a :: m2 /\ filter f m2 = l'.
Proof.
  induction l as [|x l IH]; simpl; [discriminate|].
  destruct (f x).
  - intros H. injection H as -> <-. exists [], l. split; reflexivity.
  - intros H. destruct (IH H) as [m1 [m2 [-> E]]].
    exists (x :: m1), m2. split; [reflexivity | exact E].
Qed.

Lemma filter_mid_inv {A : Type} (f : A -> bool) (l l1 : list A) (a b : A)
    (l2 : list A) :
  filter f l = l1 ++ a :: b :: l2 ->
  exists m1 m2 m3, l = m1 ++ a :: m2 ++ b :: m3.
Proof.
  revert l. induction l1 as [|y l1 IH]; intros l H; simpl in H.
  - destruct (filter_cons_inv f l a _ H) as [m1 [m2 [-> E]]].
    destruct (filter_cons_inv f m2 b _ E) as [n1 [n2 [-> _]]].
    exists m1, n1, n2. reflexivity.
  - destruct (filter_cons_inv f l y _ H) as [m1 [m2 [-> E]]].
    destruct (IH m2 E) as [n1 [n2 [n3 ->]]].
    exists (m1 ++ y :: n1), n2, n3. rewrite <- app_assoc. reflexivity.
Qed.

(** A name between two slashes in a joined path is one of its segments,
    and not the last one. *)
Lemma segment_of_joined (key : pystr) (segs : list pystr) :
  ~ In chr_slash key ->
  Forall (fun w => ~ In chr_slash w) segs ->
  Infix (chr_slash :: key ++ [chr_slash]) (chr_slash :: join [chr_slash] segs) ->
  exists l1 x l2, segs = l1 ++ key :: x :: l2.
Proof.
  intros Hkey Hsegs. induction Hsegs as [|s segs Hs Hsegs IH]; intros H.
  - exfalso. apply Infix_length in H. simpl in H. rewrite length_app in H.
    simpl in H. lia.
  - apply Infix_cons_inv in H. destruct H as [[t Ht] | H].
    + assert (E : join [chr_slash] (s :: segs) = key ++ chr_slash :: t).
      { change ((chr_slash :: key ++ [chr_slash]) ++ t)
          with (chr_slash :: (key ++ [chr_slash]) ++ t) in Ht.
        injection Ht as Ht. rewrite <- app_assoc in Ht. exact Ht. }
      clear Ht. destruct segs as [|s' segs].
      * exfalso. cbn [join] in E. apply Hs. rewrite E.
        apply in_or_app. right. left. reflexivity.
      * rewrite join_cons in E by discriminate. cbn [app] in E.
        destruct (app_sep_inj chr_slash s key _ _ Hs Hkey E) as [-> _].
        exists [], s', segs. reflexivity.
    + destruct segs as [|s' segs].
      * exfalso. simpl in H. rewrite <- (app_nil_r s) in H.
        apply Infix_skip in H; [|exact Hs].
        apply Infix_length in H. simpl in H. lia.
      * rewrite join_cons in H by discriminate.
        apply Infix_skip in H; [|exact Hs].
        destruct (IH H) as [l1 [x [l2 E]]].
        exists (s :: l1), x, l2. rewrite E. reflexivity.
Qed.

Lemma joined_has_segment (key : pystr) (m1 m2 : list pystr) :
  m2 <> [] ->
  Infix (chr_slash :: key ++ [chr_slash])
        (chr_slash :: join [chr_slash] (m1 ++ key :: m2)).
Proof.
  intros Hm2. induction m1 as [|a m1 IH].
  - simpl app. rewrite join_cons by exact Hm2.
    exists [], (join [chr_slash] m2). simpl. rewrite <- app_assoc. reflexivity.
  - change ((a :: m1) ++ key :: m2) with (a :: (m1 ++ key :: m2)).
    rewrite join_cons by (destruct m1; discriminate).
    apply (Infix_app_l _ (chr_slash :: a)). exact IH.
Qed.

(** Dropping empty and dot segments creates no inner segment. *)
Lemma inner_segment_of_raw (key rest : pystr) :
  ~ In chr_slash key ->
  Infix (chr_slash :: key ++ [chr_slash])
        (chr_slash :: join [chr_slash] (filter kept_part (split chr_slash rest))) ->
  Infix (chr_slash :: key ++ [chr_slash]) (chr_slash :: rest).
Proof.
  intros Hkey H.
  apply segment_of_joined in H; [|exact Hkey|].
  - destruct H as [l1 [x [l2 E]]].
    apply filter_mid_inv in E. destruct E as [m1 [m2 [m3 E]]].
    rewrite <- (join_split chr_slash rest), E.
    apply joined_has_segment. destruct m2; discriminate.
  - apply incl_Forall with (l1 := split chr_slash rest).
    + intros w Hw. apply filter_In in Hw. exact (proj1 Hw).
    + apply split_parts_sepfree.
Qed.

(** The normal form of a relative path that starts with a plain segment. *)
Lemma str_Path_leading_segment (d rest : pystr) :
  d <> [] -> d <> [chr_dot] -> ~ In chr_slash d ->
  str_Path (d ++ chr_slash :: rest) =
  join [chr_slash] (d :: filter kept_part (split chr_slash rest)).
Proof.
  intros Hne Hdot Hd. unfold str_Path, parse_path.
  assert (Eroot : splitroot (d ++ chr_slash :: rest) = ([], d ++ chr_slash :: rest)).
  { unfold splitroot. destruct d as [|c d]; [congruence|].
    unfold slice. simpl. destruct (N.eqb_spec c os_sep) as [E | _]; [|reflexivity].
    exfalso. apply Hd. left. exact E. }
  rewrite Eroot, split_sepfree_app by exact Hd.
  cbn [filter].
  assert (Ekept : kept_part d = true).
  { unfold kept_part. apply andb_true_iff. split; apply negb_true_iff;
      apply not_true_is_false; intros E; apply str_eqb_eq in E; congruence. }
  rewrite Ekept. cbn [app].
  destruct (join [chr_slash] (d :: filter kept_part (split chr_slash rest))) eqn:E;
    [|reflexivity].
  exfalso. destruct (filter kept_part (split chr_slash rest)).
  - simpl in E. congruence.
  - rewrite join_cons in E by discriminate. destruct d; [congruence | discriminate].
Qed.

Lemma priorities_names_plain (key : pystr) (priority : Z) :
  In (key, priority) priorities ->
  key <> [] /\ key <> [chr_dot] /\ ~ In chr_slash key.
Proof.
  intros Hin. simpl in Hin.
  repeat (destruct Hin as [H | Hin];
          [injection H as <- _; repeat split; try discriminate;
           intros Hs; simpl in Hs;
           repeat (destruct Hs as [Hs | Hs]; [discriminate|]); exact Hs|]).
  destruct Hin.
Qed.

(** C10, as stated, fails: the first segment is a table name, the
    prioritize list is empty, and the result is 4, not 99; with the name
    repeated as second segment the result is the table value 1. *)
Lemma leading_segment_counterexample :
  In (str "components", 1%Z) priorities
  /\ prioritize_paths (demo_flattener 150000 []) = []
  /\ str "components/utils/Foo.ts" = str "components" ++ str "/" ++ str "utils/Foo.ts"
  /\ get_file_priority (demo_flattener 150000 []) (str "components/utils/Foo.ts") = 4%Z
  /\ get_file_priority (demo_flattener 150000 []) (str "components/utils/Foo.ts") <> 99%Z
  /\ get_file_priority (demo_flattener 150000 []) (str "components/components/Foo.ts")
     = 1%Z.
Proof.
  repeat split; try reflexivity.
  - left. reflexivity.
  - vm_compute. discriminate.
Qed.

(** C10, amended. [get_file_priority] looks for a table name between two
    slashes and leaves a relative path relative, so the first segment of
    such a path never counts: with an empty prioritize list the result is
    99 whenever no table name stands between two slashes further on. *)
Theorem leading_segment_not_matched (self : ProjectFlattener) (d : pystr)
    (priority : Z) (rest : pystr) :
  prioritize_paths self = [] ->
  In (d, priority) priorities ->
  (forall key priority', In (key, priority') priorities ->
     ~ Infix (str "/" ++ key ++ str "/") (str "/" ++ rest)) ->
  get_file_priority self (d ++ str "/" ++ rest) = 99%Z.
Proof.
  intros Hnone Hd Hrest. unfold get_file_priority. rewrite Hnone. cbn [existsb].
  destruct (priorities_names_plain d priority Hd) as [Hne [Hdot Hplain]].
  unfold normalized_path. rewrite replace_same.
  change (d ++ str "/" ++ rest) with (d ++ chr_slash :: rest).
  rewrite (str_Path_leading_segment d rest Hne Hdot Hplain).
  apply scan_priorities_none. intros key priority' Hkey Hocc.
  destruct (priorities_names_plain key priority' Hkey) as [_ [_ Hkeyplain]].
  apply (Hrest key priority' Hkey).
  change (Infix (chr_slash :: key ++ [chr_slash]) (chr_slash :: rest)).
  change (str "/" ++ key ++ str "/") with (chr_slash :: key ++ [chr_slash]) in Hocc.
  destruct (filter kept_part (split chr_slash rest)) as [|x tail] eqn:E.
  - exfalso. cbn [join] in Hocc. rewrite <- (app_nil_r d) in Hocc.
    apply Infix_skip in Hocc; [|exact Hplain].
    apply Infix_length in Hocc. simpl in Hocc. lia.
  - rewrite join_cons in Hocc by discriminate.
    apply Infix_skip in Hocc; [|exact Hplain].
    apply inner_segment_of_raw; [exact Hkeyplain|].
    rewrite E. exact Hocc.
Qed.

Lemma leading_segment_not_matched_witness :
  get_file_priority (demo_flattener 150000 []) (str "components/Foo.ts") = 99%Z.
Proof.
  apply (leading_segment_not_matched (demo_flattener 150000 [])
           (str "components") 1%Z (str "Foo.ts")).
  - reflexivity.
  - left. reflexivity.
  - intros key priority' Hin. apply str_in_false. simpl in Hin.
    repeat (destruct Hin as [H | Hin]; [injection H as <- _; reflexivity|]).
    destruct Hin.
Defined.

(** * The matcher and what it matches *)

Lemma match_star_sound {R : Type} (cs : charset) (s : pystr)
    (k : pystr -> option R) (x : R) :
  match_star cs s k = Some x ->
  exists a s', s = a ++ s' /\ forallb (in_charset cs) a = true /\ k s' = Some x.
Proof.
  induction s as [|c s IH]; simpl; intros H.
  - exists [], []. auto.
  - destruct (in_charset cs c) eqn:Hc.
    + destruct (match_star cs s k) as [y|] eqn:Hs.
      * injection H as ->. destruct (IH eq_refl) as [a [s' [-> [Ha Hk]]]].
        exists (c :: a), s'. simpl. rewrite Hc, Ha. auto.
      * exists [], (c :: s). auto.
    + exists [], (c :: s). auto.
Qed.

Lemma match_star_complete {R : Type} (cs : charset) (a s' : pystr)
    (k : pystr -> option R) :
  forallb (in_charset cs) a = true -> k s' <> None ->
  match_star cs (a ++ s') k <> None.
Proof.
  intros Ha Hk. induction a as [|c a IH]; simpl in *.
  - destruct s' as [|c s']; simpl; [exact Hk|].
    destruct (in_charset cs c); [|exact Hk].
    destruct (match_star cs s' k); [discriminate | exact Hk].
  - apply andb_true_iff in Ha. destruct Ha as [Hc Ha]. rewrite Hc.
    specialize (IH Ha). destruct (match_star cs (a ++ s') k); [discriminate|].
    congruence.
Qed.

Lemma list_set_app {A : Type} (g : list A) (old v : A) (gs : list A) :
  list_set (length g) v ((g ++ [old]) ++ gs) = g ++ v :: gs.
Proof.
  rewrite <- app_assoc. cbn [app].
  induction g as [|x g IH]; simpl; [reflexivity|].
  rewrite IH. reflexivity.
Qed.

Lemma firstn_match (a s' : pystr) :
  firstn (length (a ++ s') - length s') (a ++ s') = a.
Proof.
  rewrite length_app. replace (length a + length s' - length s') with (length a) by lia.
  rewrite firstn_app, Nat.sub_diag, firstn_all. simpl. apply app_nil_r.
Qed.

Lemma match_re_sound {R : Type} (r : regex) :
  forall (s : pystr) (g : list pystr) (k : pystr -> list pystr -> option R) (x : R),
    match_re r s g k = Some x ->
    exists a s' gs, s = a ++ s' /\ Parses r a gs /\ k s' (g ++ gs) = Some x.
Proof.
  induction r as [l | cs | cs | cs | r1 IH1 r2 IH2 | r IH]; intros s g k x H; simpl in H.
  - destruct (startswith s l) eqn:E; [|discriminate].
    apply startswith_Prefix in E. destruct E as [t ->].
    rewrite skipn_app, Nat.sub_diag, skipn_all in H. simpl in H.
    exists l, t, []. rewrite app_nil_r. simpl. repeat split. exact H.
  - destruct s as [|c s]; [discriminate|].
    destruct (in_charset cs c) eqn:Hc; [|discriminate].
    exists [c], s, []. rewrite app_nil_r. simpl.
    repeat split; [|exact H]. exists c. auto.
  - apply match_star_sound in H. destruct H as [a [s' [-> [Ha Hk]]]].
    exists a, s', []. rewrite app_nil_r. simpl. repeat split; assumption.
  - destruct s as [|c s]; [discriminate|].
    destruct (in_charset cs c) eqn:Hc; [|discriminate].
    apply match_star_sound in H. destruct H as [a [s' [-> [Ha Hk]]]].
    exists (c :: a), s', []. rewrite app_nil_r. simpl. rewrite Hc, Ha.
    repeat split; auto. discriminate.
  - apply IH1 in H. destruct H as [a1 [s1 [g1 [-> [P1 H]]]]].
    apply IH2 in H. destruct H as [a2 [s2 [g2 [-> [P2 H]]]]].
    exists (a1 ++ a2), s2, (g1 ++ g2). rewrite <- app_assoc.
    split; [reflexivity|]. split.
    + simpl. exists a1, a2, g1, g2. auto.
    + rewrite app_assoc. exact H.
  - apply IH in H. destruct H as [a [s' [gs [-> [P H]]]]].
    rewrite list_set_app, firstn_match in H.
    exists a, s', (a :: gs). split; [reflexivity|]. split; [|exact H].
    simpl. exists gs. auto.
Qed.

Lemma match_re_complete {R : Type} (r : regex) :
  forall (a s' : pystr) (g gs : list pystr) (k : pystr -> list pystr -> option R),
    Parses r a gs -> k s' (g ++ gs) <> None ->
    match_re r (a ++ s') g k <> None.
Proof.
  induction r as [l | cs | cs | cs | r1 IH1 r2 IH2 | r IH];
    intros a s' g gs k P Hk; simpl in P |- *.
  - destruct P as [-> ->]. rewrite app_nil_r in Hk.
    assert (E : startswith (l ++ s') l = true).
    { apply startswith_Prefix. exists s'. reflexivity. }
    rewrite E, skipn_app, Nat.sub_diag, skipn_all. exact Hk.
  - destruct P as [c [-> [Hc ->]]]. rewrite app_nil_r in Hk. simpl. rewrite Hc.
    exact Hk.
  - destruct P as [Ha ->]. rewrite app_nil_r in Hk.
    apply match_star_complete; assumption.
  - destruct P as [Hne [Ha ->]]. rewrite app_nil_r in Hk.
    destruct a as [|c a]; [congruence|]. simpl in Ha |- *.
    apply andb_true_iff in Ha. destruct Ha as [Hc Ha]. rewrite Hc.
    apply match_star_complete; assumption.
  - destruct P as [a1 [a2 [g1 [g2 [-> [-> [P1 P2]]]]]]].
    rewrite <- app_assoc. apply (IH1 a1 (a2 ++ s') g g1); [exact P1|].
    apply (IH2 a2 s' (g ++ g1) g2); [exact P2|].
    rewrite <- app_assoc. exact Hk.
  - destruct P as [gs' [-> P]].
    apply (IH a s' (g ++ [[]]) gs'); [exact P|].
    rewrite list_set_app, firstn_match. exact Hk.
Qed.

Lemma re_match_sound (r : regex) (s : pystr) (m : match_obj) :
  re_match r s = Some m ->
  s = m_text m ++ m_rest m /\ Parses r (m_text m) (m_groups m).
Proof.
  unfold re_match. intros H. apply match_re_sound in H.
  destruct H as [a [s' [gs [-> [P H]]]]]. rewrite firstn_match in H.
  injection H as <-. simpl. auto.
Qed.

Lemma re_match_complete (r : regex) (a s' : pystr) (gs : list pystr) :
  Parses r a gs -> re_match r (a ++ s') <> None.
Proof.
  intros P. unfold re_match.
  apply (match_re_complete r a s' [] gs); [exact P | discriminate].
Qed.

(** * Substitution *)

Section Substitution.

Variable r : regex.
Variable repl : match_obj -> pystr.

Lemma re_sub_from_skip (passed rest : pystr) :
  re_sub_from r repl (length passed) (passed ++ rest) = re_sub_from r repl 0 rest.
Proof.
  induction passed as [|c passed IH]; simpl; [|exact IH].
  destruct rest; reflexivity.
Qed.

Lemma re_sub_at_match (s : pystr) (m : match_obj) :
  re_match r s = Some m -> m_text m <> [] ->
  re_sub r repl s = repl m ++ re_sub r repl (m_rest m).
Proof.
  intros Hm Hne. destruct (re_match_sound r s m Hm) as [Hs _].
  destruct (m_text m) as [|c t] eqn:Et; [congruence|].
  simpl in Hs. unfold re_sub. rewrite Hs at 1. cbn [re_sub_from].
  rewrite <- Hs, Hm, Et. cbn [length].
  rewrite re_sub_from_skip. reflexivity.
Qed.

Lemma re_sub_no_match_here (c : N) (s : pystr) :
  re_match r (c :: s) = None -> re_sub r repl (c :: s) = c :: re_sub r repl s.
Proof. intros H. unfold re_sub. cbn [re_sub_from]. rewrite H. reflexivity. Qed.

Lemma re_search_none (s : pystr) :
  re_search r s = None ->
  forall before t, s = before ++ t -> re_match r t = None.
Proof.
  induction s as [|c s IH]; simpl; intros H before t E.
  - destruct before; [|discriminate]. simpl in E. subst t.
    destruct (re_match r []); [discriminate | reflexivity].
  - destruct (re_match r (c :: s)) eqn:Hm; [discriminate|].
    destruct before as [|x before]; simpl in E.
    + subst t. exact Hm.
    + injection E as _ ->. apply (IH ltac:(destruct (re_search r (before ++ t)) as [[? ?]|]; [discriminate | reflexivity]) before t eq_refl).
Qed.

Lemma re_search_some (s before : pystr) (m : match_obj) :
  re_search r s = Some (before, m) ->
  s = before ++ m_text m ++ m_rest m
  /\ re_match r (m_text m ++ m_rest m) = Some m
  /\ forall b1 b2, before = b1 ++ b2 -> b2 <> [] ->
       re_match r (b2 ++ m_text m ++ m_rest m) = None.
Proof.
  revert before. induction s as [|c s IH]; intros before H; simpl in H.
  - destruct (re_match r []) as [m'|] eqn:Hm; [|discriminate].
    injection H as <- <-. destruct (re_match_sound r [] m' Hm) as [E _].
    rewrite <- E. split; [reflexivity|]. split; [exact Hm|].
    intros b1 b2 Hb Hne. destruct b1; destruct b2; try discriminate. congruence.
  - destruct (re_match r (c :: s)) as [m'|] eqn:Hm.
    + injection H as <- <-. destruct (re_match_sound r _ m' Hm) as [E _].
      rewrite <- E. split; [reflexivity|]. split; [exact Hm|].
      intros b1 b2 Hb Hne. destruct b1; destruct b2; try discriminate. congruence.
    + destruct (re_search r s) as [[before' m']|] eqn:Hs; [|discriminate].
      injection H as <- <-. destruct (IH before' eq_refl) as [E [Hm' Hleft]].
      split; [simpl; rewrite <- E; reflexivity|]. split; [exact Hm'|].
      intros b1 b2 Hb Hne. destruct b1 as [|x b1]; simpl in Hb.
      * subst b2. simpl. rewrite <- E. exact Hm.
      * injection Hb as _ Hb. apply (Hleft b1 b2 Hb Hne).
Qed.

Lemma re_sub_unmatched (s : pystr) :
  re_search r s = None -> re_sub r repl s = s.
Proof.
  intros H. assert (Hall := re_search_none s H). clear H.
  induction s as [|c s IH]; [reflexivity|].
  rewrite re_sub_no_match_here by (apply (Hall [] (c :: s)); reflexivity).
  rewrite IH; [reflexivity|].
  intros before t E. apply (Hall (c :: before) t). simpl. rewrite E. reflexivity.
Qed.

Lemma re_sub_leftmost (s before : pystr) (m : match_obj) :
  re_search r s = Some (before, m) -> m_text m <> [] ->
  re_sub r repl s = before ++ repl m ++ re_sub r repl (m_rest m).
Proof.
  intros H Hne. destruct (re_search_some s before m H) as [-> [Hm Hleft]].
  clear H. induction before as [|c before IH].
  - simpl. apply re_sub_at_match; assumption.
  - change ((c :: before) ++ m_text m ++ m_rest m)
      with (c :: (before ++ m_text m ++ m_rest m)).
    rewrite re_sub_no_match_here.
    + rewrite IH; [reflexivity|].
      intros b1 b2 Hb Hb2. apply (Hleft (c :: b1) b2); [|exact Hb2].
      simpl. rewrite Hb. reflexivity.
    + apply (Hleft [] (c :: before)); [reflexivity | discriminate].
Qed.

End Substitution.

Lemma prefix_split {A : Type} (a b x y : list A) :
  a ++ x = b ++ y -> length a < length b ->
  exists c, b = a ++ c /\ c <> [] /\ x = c ++ y.
Proof.
  intros E Hlen. apply app_eq_app in E. destruct E as [l [[-> ->] | [-> ->]]].
  - rewrite length_app in Hlen. lia.
  - exists l. repeat split. intros ->. rewrite app_nil_r in Hlen. lia.
Qed.

(** Every occurrence of the pattern starts at or behind the match that
    [re_search] returns. *)
Lemma re_search_leftmost (r : regex) (s before : pystr) (m : match_obj) :
  re_search r s = Some (before, m) ->
  forall b text gs after,
    s = b ++ text ++ after -> Parses r text gs -> length before <= length b.
Proof.
  intros H b text gs after E P.
  destruct (re_search_some r s before m H) as [Es [_ Hleft]].
  destruct (Nat.le_gt_cases (length before) (length b)) as [Hle | Hlt]; [exact Hle|].
  exfalso. rewrite Es in E. symmetry in E.
  destruct (prefix_split _ _ _ _ E Hlt) as [c [Hb [Hc Ht]]].
  apply (re_match_complete r text after gs P).
  rewrite Ht. apply (Hleft b c Hb Hc).
Qed.

Lemma re_search_no_occurrence (r : regex) (s : pystr) :
  (forall before text gs after,
      s = before ++ text ++ after -> ~ Parses r text gs) ->
  re_search r s = None.
Proof.
  intros Hnone. destruct (re_search r s) as [[before m]|] eqn:H; [|reflexivity].
  exfalso. destruct (re_search_some r s before m H) as [E [Hm _]].
  destruct (re_match_sound r _ m Hm) as [_ P].
  exact (Hnone before (m_text m) (m_groups m) (m_rest m) E P).
Qed.

(** * The annotator *)

Lemma import_match_groups (text : pystr) (gs : list pystr) :
  Parses import_pattern text gs ->
  exists g1 g2 g3, gs = [g1; g2; g3] /\ text = g1 ++ g2 ++ g3 /\ text <> [].
Proof.
  intros P. cbn [import_pattern Parses] in P.
  destruct P as [a1 [a2 [gs1 [gs2 [-> [-> [[g1 [-> P1]] P2]]]]]]].
  destruct P2 as [a3 [a4 [gs3 [gs4 [-> [-> [[g3 [-> P3]] [g4 [-> P4]]]]]]]]].
  destruct P1 as [x1 [x2 [h1 [h2 [-> [-> [[-> ->] P1]]]]]]].
  destruct P1 as [y1 [y2 [i1 [i2 [-> [-> [[_ ->] P1]]]]]]].
  destruct P1 as [z1 [z2 [j1 [j2 [-> [-> [[_ ->] P1]]]]]]].
  destruct P1 as [u1 [u2 [k1 [k2 [-> [-> [[_ [_ ->]] [c [_ [_ ->]]]]]]]]]].
  destruct P3 as [v1 [v2 [n1 [n2 [-> [-> [[c' [_ [_ ->]]] [_ ->]]]]]]]].
  destruct P4 as [c'' [_ [_ ->]]].
  eexists _, _, _. split; [reflexivity|]. split; [reflexivity|]. discriminate.
Qed.

Lemma import_match_obj (s : pystr) (m : match_obj) :
  re_match import_pattern s = Some m ->
  Parses import_pattern (group m 0) [group m 1; group m 2; group m 3]
  /\ m_text m <> [].
Proof.
  intros H. destruct (re_match_sound _ _ _ H) as [_ P].
  destruct (import_match_groups _ _ P) as [g1 [g2 [g3 [Eg [_ Hne]]]]].
  split; [|exact Hne]. unfold group. rewrite Eg. simpl. rewrite <- Eg. exact P.
Qed.

(** C1, as stated, fails: the matched statement is replaced by the two
    comment lines; every line of the result is a comment and the result
    does not end with the statement. *)
Lemma process_imports_counterexample :
  process_imports (str "import a from './b'") (str "x.ts")
  = str "// Original import: import a from './b'" ++ [chr_nl]
    ++ str "// Flattened version would be: import from './b'"
  /\ endswith (process_imports (str "import a from './b'") (str "x.ts"))
       (str "import a from './b'") = false
  /\ forallb (fun line => startswith line (str "//"))
       (split chr_nl (process_imports (str "import a from './b'") (str "x.ts")))
     = true.
Proof. repeat split; reflexivity. Qed.

(** C1, amended. [process_imports] replaces the leftmost occurrence of
    the import pattern, when its module specifier (group 2) begins with a
    dot, by two comment lines: the first quotes the matched statement, the
    second names the specifier; the statement does not follow them again.
    A match whose specifier begins otherwise stays as it is. The text in
    front of the match is kept, what follows the match is processed the
    same way, and content in which the pattern occurs nowhere is returned
    unchanged. *)
Theorem process_imports_comments_out (content file_path : pystr) :
  ((forall before text gs after,
       content = before ++ text ++ after -> ~ Parses import_pattern text gs) ->
   process_imports content file_path = content)
  /\ (forall before m,
        re_search import_pattern content = Some (before, m) ->
        content = before ++ group m 0 ++ m_rest m
        /\ Parses import_pattern (group m 0) [group m 1; group m 2; group m 3]
        /\ (forall b text gs after,
              content = b ++ text ++ after -> Parses import_pattern text gs ->
              length before <= length b)
        /\ (startswith (group m 2) (str ".") = true ->
            process_imports content file_path
            = before
              ++ (str "// Original import: " ++ group m 0 ++ [chr_nl]
                  ++ str "// Flattened version would be: import from '"
                  ++ group m 2 ++ str "'")
              ++ process_imports (m_rest m) file_path)
        /\ (startswith (group m 2) (str ".") = false ->
            process_imports content file_path
            = before ++ group m 0 ++ process_imports (m_rest m) file_path)).
Proof.
  split.
  - intros Hnone. unfold process_imports. apply re_sub_unmatched.
    apply re_search_no_occurrence. exact Hnone.
  - intros before m H.
    destruct (re_search_some _ _ _ _ H) as [E [Hm _]].
    destruct (import_match_obj _ _ Hm) as [P Hne].
    split; [exact E|]. split; [exact P|].
    split; [exact (re_search_leftmost _ _ _ _ H)|].
    unfold process_imports.
    rewrite (re_sub_leftmost import_pattern replace_import content before m H Hne).
    unfold replace_import. split; intros Hdot; rewrite Hdot; reflexivity.
Qed.

Lemma process_imports_comments_out_witness :
  process_imports (str "const a = 1;") (str "x.ts") = str "const a = 1;"
  /\ process_imports (str "let x; import a from './b'; f()") (str "x.ts")
     = str "let x; " ++ str "// Original import: import a from './b'" ++ [chr_nl]
       ++ str "// Flattened version would be: import from './b'" ++ str "; f()"
  /\ process_imports (str "import React from 'react';") (str "x.ts")
     = str "import React from 'react';".
Proof.
  split; [|split].
  - apply (proj1 (process_imports_comments_out (str "const a = 1;") (str "x.ts"))).
    intros before text gs after E P.
    assert (H : re_search import_pattern (str "const a = 1;") = None) by reflexivity.
    apply (re_match_complete import_pattern text after gs P).
    apply (re_search_none import_pattern _ H before (text ++ after) E).
  - pose (content := str "let x; import a from './b'; f()").
    destruct (re_search import_pattern content) as [[before m]|] eqn:H;
      [|vm_compute in H; discriminate].
    destruct (proj2 (process_imports_comments_out content (str "x.ts")) before m H)
      as [_ [_ [_ [Hdot _]]]].
    vm_compute in H. injection H as <- <-.
    exact (Hdot eq_refl).
  - pose (content := str "import React from 'react';").
    destruct (re_search import_pattern content) as [[before m]|] eqn:H;
      [|vm_compute in H; discriminate].
    destruct (proj2 (process_imports_comments_out content (str "x.ts")) before m H)
      as [_ [_ [_ [_ Hother]]]].
    vm_compute in H. injection H as <- <-.
    exact (Hother eq_refl).
Defined.

(** * The packer *)

Section Packer.

Variable env : Env.
Variable self : ProjectFlattener.

Lemma estimate_tokens_nonneg (text : pystr) : (0 <= estimate_tokens env text)%Z.
Proof.
  unfold estimate_tokens. destruct (encode env text); [lia|].
  apply Z.div_pos; lia.
Qed.

Lemma chunk_tokens_nonneg (chunk : list (pystr * pystr)) :
  (0 <= chunk_tokens env chunk)%Z.
Proof.
  induction chunk as [|e chunk IH]; simpl; [lia|].
  pose proof (estimate_tokens_nonneg (snd e)). lia.
Qed.

Lemma chunk_tokens_app (c1 c2 : list (pystr * pystr)) :
  chunk_tokens env (c1 ++ c2) = (chunk_tokens env c1 + chunk_tokens env c2)%Z.
Proof. induction c1 as [|e c1 IH]; simpl; [reflexivity | rewrite IH; lia]. Qed.

Lemma flush_if_over_outcome (st : locals) (file_tokens : Z) (w : world) :
  flush_outcome env self st file_tokens w (flush_if_over env self st file_tokens w).
Proof.
  unfold flush_if_over.
  destruct (current_token_count st + file_tokens >? tokens_per_file self)%Z eqn:Hover.
  - destruct (current_chunk st) as [|e c] eqn:Hchunk; cbn [is_nonempty andb].
    + apply flush_not_needed. right. exact Hchunk.
    + unfold bind, write_chunk, fs_write, ret.
      destruct (write_raises env (attempts w)) eqn:Hw.
      * rewrite <- Hchunk.
        apply flush_failed; [lia | rewrite Hchunk; discriminate | exact Hw].
      * rewrite <- Hchunk. apply flush_done; [lia | rewrite Hchunk; discriminate | exact Hw].
  - cbn [andb]. apply flush_not_needed. left. lia.
Qed.

(** One turn of the loop never raises: it skips the file (read failure, or
    a flush that failed), or it appends it after the flush check. *)
Lemma process_file_cases (st : locals) (file_path : pystr) (w : world) :
  match read_text env file_path with
  | None => process_file env self st file_path w = (Ok st, w)
  | Some content =>
      let file_content := file_content_of env self file_path content in
      let file_tokens := estimate_tokens env file_content in
      match flush_if_over env self st file_tokens w with
      | (Ok st1, w1) =>
          process_file env self st file_path w
          = (Ok (append_file st1 (rel_path_of env self file_path) file_content
                   file_tokens), w1)
      | (Raise _, w1) => process_file env self st file_path w = (Ok st, w1)
      end
  end.
Proof.
  unfold process_file, try_except, bind, open_read, file_content_of, rel_path_of.
  destruct (read_text env file_path) as [content|]; [|reflexivity].
  unfold ret. cbv beta iota zeta.
  destruct (flush_if_over env self st _ w) as [[st1 | e] w1]; reflexivity.
Qed.

Lemma process_file_ok (st : locals) (file_path : pystr) (w : world) :
  exists st' w', process_file env self st file_path w = (Ok st', w').
Proof.
  pose proof (process_file_cases st file_path w) as H.
  destruct (read_text env file_path); [|eauto].
  cbn zeta in H. destruct (flush_if_over env self st _ w) as [[st1 | e] w1]; eauto.
Qed.

Lemma BudgetInv_initial : BudgetInv env self initial_locals.
Proof. split; [reflexivity | intros H; simpl in H; lia]. Qed.

Lemma BudgetInv_flush (st st1 : locals) (file_tokens : Z) (w w1 : world) :
  BudgetInv env self st ->
  flush_if_over env self st file_tokens w = (Ok st1, w1) ->
  BudgetInv env self st1
  /\ (current_chunk st1 <> [] ->
      (current_token_count st1 + file_tokens <= tokens_per_file self)%Z).
Proof.
  intros Hinv H. pose proof (flush_if_over_outcome st file_tokens w) as O.
  rewrite H in O. inversion O as [Hfit | Hover Hne Hw | Hover Hne Hw]; subst.
  - split; [exact Hinv|]. intros Hne. destruct Hfit as [Hfit | Hnil]; [exact Hfit|].
    congruence.
  - split; [apply BudgetInv_initial|]. simpl. congruence.
Qed.

Lemma BudgetInv_append (st1 : locals) (rel_path file_content : pystr) :
  BudgetInv env self st1 ->
  (current_chunk st1 <> [] ->
   (current_token_count st1 + estimate_tokens env file_content
    <= tokens_per_file self)%Z) ->
  BudgetInv env self (append_file st1 rel_path file_content
               (estimate_tokens env file_content)).
Proof.
  intros [Hcount Hbudget] Hfit. unfold BudgetInv, append_file.
  cbn [current_chunk current_token_count].
  rewrite chunk_tokens_app. cbn [chunk_tokens fold_right snd]. split; [lia|].
  unfold WithinBudget. rewrite length_app, chunk_tokens_app.
  cbn [length chunk_tokens fold_right snd]. intros Hlen.
  assert (Hne : current_chunk st1 <> []).
  { destruct (current_chunk st1); [simpl in Hlen; lia | discriminate]. }
  specialize (Hfit Hne). lia.
Qed.

Lemma BudgetInv_process_file (st st' : locals) (file_path : pystr) (w w' : world) :
  BudgetInv env self st ->
  process_file env self st file_path w = (Ok st', w') ->
  BudgetInv env self st'.
Proof.
  intros Hinv H. pose proof (process_file_cases st file_path w) as C.
  destruct (read_text env file_path) as [content|].
  - cbn zeta in C.
    destruct (flush_if_over env self st _ w) as [[st1 | e] w1] eqn:F;
      rewrite C in H; injection H as <- <-; [|exact Hinv].
    destruct (BudgetInv_flush _ _ _ _ _ Hinv F) as [Hinv1 Hfit].
    apply BudgetInv_append; assumption.
  - rewrite C in H. injection H as <- <-. exact Hinv.
Qed.

Lemma for_each_process_file_inv (P : locals -> Prop) :
  (forall st st' file_path w w',
      P st -> process_file env self st file_path w = (Ok st', w') -> P st') ->
  forall paths st w st' w',
    P st ->
    for_each (process_file env self) paths st w = (Ok st', w') -> P st'.
Proof.
  intros Hstep. induction paths as [|p paths IH]; intros st w st' w' HP H.
  - injection H as <- <-. exact HP.
  - cbn [for_each] in H. unfold bind in H.
    destruct (process_file env self st p w) as [[st1 | e] w1] eqn:Hp; [|discriminate].
    apply (IH st1 w1 st' w'); [|exact H].
    apply (Hstep st st1 p w w1 HP Hp).
Qed.

Lemma Packed_BudgetInv (paths : list pystr) (w0 : world) (st : locals) (w : world) :
  Packed env self paths w0 st w -> BudgetInv env self st.
Proof.
  intros H. apply (for_each_process_file_inv (BudgetInv env self) BudgetInv_process_file
                     paths initial_locals w0 st w BudgetInv_initial H).
Qed.

End Packer.

(** * Chunk names *)

Lemma str_inj (a b : string) : str a = str b -> a = b.
Proof.
  unfold str. intros H.
  rewrite <- (string_of_list_ascii_of_string a), <- (string_of_list_ascii_of_string b).
  f_equal. revert H. generalize (list_ascii_of_string a) (list_ascii_of_string b).
  induction l as [|x l IH]; intros [|y l'] H; simpl in H; try discriminate; [reflexivity|].
  injection H as Hxy H. f_equal; [|exact (IH l' H)].
  rewrite <- (ascii_N_embedding x), <- (ascii_N_embedding y), Hxy. reflexivity.
Qed.

Lemma to_uint_not_Nil (n : nat) : Nat.to_uint n <> Decimal.Nil.
Proof.
  pose proof (Unsigned.to_of (Nat.to_uint n)) as H.
  rewrite Unsigned.of_to in H. rewrite H. unfold Decimal.unorm.
  destruct (Decimal.nzhead (Nat.to_uint n)); discriminate.
Qed.

Lemma str_of_nat_inj (n n' : nat) : str_of_nat n = str_of_nat n' -> n = n'.
Proof.
  unfold str_of_nat. intros H. apply str_inj in H.
  apply Unsigned.to_uint_inj.
  pose proof (NilZero.usu _ (to_uint_not_Nil n)) as U.
  pose proof (NilZero.usu _ (to_uint_not_Nil n')) as U'.
  rewrite H in U. congruence.
Qed.

Lemma chunk_name_inj (n n' : nat) : chunk_name n = chunk_name n' -> n = n'.
Proof.
  unfold chunk_name. intros H. apply app_inv_head in H. apply app_inv_tail in H.
  apply str_of_nat_inj. exact H.
Qed.

(** * Dictionaries *)

Lemma str_eqb_refl (a : pystr) : str_eqb a a = true.
Proof. apply str_eqb_eq. reflexivity. Qed.

Lemma str_eqb_neq (a b : pystr) : a <> b -> str_eqb a b = false.
Proof.
  intros H. apply not_true_is_false. intros E. apply str_eqb_eq in E. congruence.
Qed.

Lemma dict_set_fresh {V : Type} (d : list (pystr * V)) (k : pystr) (v : V) :
  ~ In k (map fst d) -> dict_set d k v = d ++ [(k, v)].
Proof.
  induction d as [|[k' v'] d IH]; intros Hfresh; simpl; [reflexivity|].
  rewrite str_eqb_neq.
  - rewrite IH; [reflexivity|]. intros Hin. apply Hfresh. right. exact Hin.
  - intros ->. apply Hfresh. left. reflexivity.
Qed.

Lemma dict_get_set {V : Type} (d : list (pystr * V)) (k : pystr) (v : V) :
  dict_get (dict_set d k v) k = Some v.
Proof.
  induction d as [|[k' v'] d IH]; simpl.
  - rewrite str_eqb_refl. reflexivity.
  - destruct (str_eqb k' k) eqn:E; simpl; rewrite E; [reflexivity | exact IH].
Qed.

Lemma dict_get_set_other {V : Type} (d : list (pystr * V)) (k k' : pystr) (v : V) :
  k' <> k -> dict_get (dict_set d k v) k' = dict_get d k'.
Proof.
  intros Hne. induction d as [|[k0 v0] d IH]; simpl.
  - rewrite str_eqb_neq by congruence. reflexivity.
  - destruct (str_eqb k0 k) eqn:E; simpl.
    + apply str_eqb_eq in E. subst k0. rewrite str_eqb_neq by congruence.
      reflexivity.
    + destruct (str_eqb k0 k'); [reflexivity | exact IH].
Qed.

(** * Order *)

Lemma Subseq_refl {A : Type} (l : list A) : Subseq l l.
Proof. induction l; constructor; assumption. Qed.

Lemma Subseq_app {A : Type} (l1 l1' l2 l2' : list A) :
  Subseq l1 l1' -> Subseq l2 l2' -> Subseq (l1 ++ l2) (l1' ++ l2').
Proof. induction 1; intros H2; simpl; try constructor; auto. Qed.

Lemma Subseq_snoc_skip {A : Type} (l l' : list A) (x : A) :
  Subseq l l' -> Subseq l (l' ++ [x]).
Proof.
  intros H. rewrite <- (app_nil_r l). apply Subseq_app; [exact H|].
  apply Subseq_skip, Subseq_nil.
Qed.

Lemma Subseq_snoc_keep {A : Type} (l l' : list A) (x : A) :
  Subseq l l' -> Subseq (l ++ [x]) (l' ++ [x]).
Proof. intros H. apply Subseq_app; [exact H | apply Subseq_refl]. Qed.

Lemma Subseq_filter {A : Type} (f : A -> bool) (l l' : list A) :
  Subseq l l' -> Subseq (filter f l) (filter f l').
Proof.
  induction 1 as [|x l l' _ IH | x l l' _ IH]; simpl.
  - constructor.
  - destruct (f x); [constructor|]; exact IH.
  - destruct (f x); [constructor|]; exact IH.
Qed.

Lemma filter_Subseq {A : Type} (f : A -> bool) (l : list A) : Subseq (filter f l) l.
Proof.
  induction l as [|x l IH]; simpl; [constructor|].
  destruct (f x); constructor; exact IH.
Qed.

Lemma Subseq_In {A : Type} (l l' : list A) (x : A) :
  Subseq l l' -> In x l -> In x l'.
Proof.
  induction 1 as [|y l l' _ IH | y l l' _ IH]; simpl; intros H; auto.
  destruct H; auto.
Qed.

Lemma Subseq_map {A B : Type} (f : A -> B) (l l' : list A) :
  Subseq l l' -> Subseq (map f l) (map f l').
Proof. induction 1; simpl; constructor; assumption. Qed.

Lemma Subseq_NoDup {A : Type} (l l' : list A) :
  Subseq l l' -> NoDup l' -> NoDup l.
Proof.
  induction 1 as [|x l l' Hs IH | x l l' Hs IH]; intros Hnd.
  - constructor.
  - inversion Hnd as [|? ? Hx Hl']; subst. constructor; [|exact (IH Hl')].
    intros Hin. apply Hx. exact (Subseq_In _ _ _ Hs Hin).
  - inversion Hnd; subst. auto.
Qed.

Lemma Subseq_cons_inv {A : Type} (x : A) (l l' : list A) :
  Subseq (x :: l) l' -> exists l1 l2, l' = l1 ++ x :: l2 /\ Subseq l l2.
Proof.
  induction l' as [|y l' IH]; intros H; inversion H; subst.
  - exists [], l'. auto.
  - destruct (IH H2) as [l1 [l2 [-> Hs]]]. exists (y :: l1), l2. auto.
Qed.

Lemma Subseq_app_inv {A : Type} (a b l' : list A) :
  Subseq (a ++ b) l' -> exists l1 l2, l' = l1 ++ l2 /\ Subseq a l1 /\ Subseq b l2.
Proof.
  revert l'. induction a as [|x a IH]; intros l' H.
  - exists [], l'. repeat split; [constructor | exact H].
  - simpl in H. apply Subseq_cons_inv in H. destruct H as [l1 [l2 [-> H]]].
    destruct (IH l2 H) as [m1 [m2 [-> [Ha Hb]]]].
    exists (l1 ++ x :: m1), m2. rewrite <- app_assoc. repeat split; [|exact Hb].
    rewrite <- (app_nil_l (x :: a)). apply Subseq_app.
    + clear. induction l1; constructor; assumption.
    + constructor. exact Ha.
Qed.

Lemma Subseq_Before {A : Type} (x y : A) (l l' : list A) :
  Subseq l l' -> Before x y l -> Before x y l'.
Proof.
  intros H [l1 [l2 [l3 ->]]].
  apply Subseq_app_inv in H. destruct H as [m1 [m2 [-> [_ H]]]].
  apply Subseq_cons_inv in H. destruct H as [n1 [n2 [-> H]]].
  apply Subseq_app_inv in H. destruct H as [p1 [p2 [-> [_ H]]]].
  apply Subseq_cons_inv in H. destruct H as [q1 [q2 [-> _]]].
  exists (m1 ++ n1), (p1 ++ q1), q2. rewrite <- !app_assoc. reflexivity.
Qed.

Lemma Before_filter {A : Type} (f : A -> bool) (x y : A) (l : list A) :
  f x = true -> f y = true -> Before x y l -> Before x y (filter f l).
Proof.
  intros Hx Hy [l1 [l2 [l3 ->]]].
  exists (filter f l1), (filter f l2), (filter f l3).
  rewrite filter_app. simpl. rewrite Hx, filter_app. simpl. rewrite Hy. reflexivity.
Qed.

(** * The stable sort *)

Section Sorting.

Variable key : pystr -> Z.

Lemma insert_by_filter (k : Z) (x : pystr) (l : list pystr) :
  filter (fun p => (key p =? k)%Z) (insert_by key x l)
  = filter (fun p => (key p =? k)%Z) (x :: l).
Proof.
  induction l as [|y l IH]; [reflexivity|].
  cbn [insert_by]. destruct (key x <=? key y)%Z eqn:Hle; [reflexivity|].
  cbn [filter] in IH |- *. rewrite IH.
  destruct (Z.eqb_spec (key x) k) as [Hx | Hx];
    destruct (Z.eqb_spec (key y) k) as [Hy | Hy]; try reflexivity.
  apply Z.leb_gt in Hle. lia.
Qed.

Lemma list_sort_stable (k : Z) (l : list pystr) :
  filter (fun p => (key p =? k)%Z) (list_sort key l)
  = filter (fun p => (key p =? k)%Z) l.
Proof.
  induction l as [|x l IH]; [reflexivity|].
  cbn [list_sort fold_right]. fold (list_sort key l).
  rewrite insert_by_filter. cbn [filter]. rewrite IH. reflexivity.
Qed.

Lemma insert_by_In (x y : pystr) (l : list pystr) :
  In y (insert_by key x l) <-> y = x \/ In y l.
Proof.
  induction l as [|z l IH]; simpl.
  - intuition.
  - destruct (key x <=? key z)%Z; simpl; [intuition|]. rewrite IH. intuition.
Qed.

Lemma list_sort_In (y : pystr) (l : list pystr) : In y (list_sort key l) <-> In y l.
Proof.
  induction l as [|x l IH]; [reflexivity|].
  cbn [list_sort fold_right]. fold (list_sort key l).
  rewrite insert_by_In, IH. simpl. intuition.
Qed.

Lemma insert_by_Permutation (x : pystr) (l : list pystr) :
  Permutation (insert_by key x l) (x :: l).
Proof.
  induction l as [|z l IH]; simpl; [apply Permutation_refl|].
  destruct (key x <=? key z)%Z; [apply Permutation_refl|].
  apply perm_trans with (z :: x :: l); [apply perm_skip; exact IH | apply perm_swap].
Qed.

Lemma list_sort_Permutation (l : list pystr) : Permutation (list_sort key l) l.
Proof.
  induction l as [|x l IH]; [apply perm_nil|].
  cbn [list_sort fold_right]. fold (list_sort key l).
  apply perm_trans with (x :: list_sort key l);
    [apply insert_by_Permutation | apply perm_skip; exact IH].
Qed.

Lemma insert_by_ascending (x : pystr) (l : list pystr) :
  ascending key l -> ascending key (insert_by key x l).
Proof.
  induction l as [|z l IH]; intros Hl; simpl.
  - split; [intros y []|exact I].
  - destruct Hl as [Hz Hl]. destruct (key x <=? key z)%Z eqn:Hle.
    + apply Z.leb_le in Hle. split; [|split; assumption].
      intros y [<- | Hy]; [exact Hle|]. specialize (Hz y Hy). lia.
    + apply Z.leb_gt in Hle. split; [|exact (IH Hl)].
      intros y Hy. apply insert_by_In in Hy. destruct Hy as [-> | Hy]; [lia|].
      exact (Hz y Hy).
Qed.

Lemma list_sort_ascending (l : list pystr) : ascending key (list_sort key l).
Proof.
  induction l as [|x l IH]; [exact I|].
  cbn [list_sort fold_right]. fold (list_sort key l).
  apply insert_by_ascending. exact IH.
Qed.

End Sorting.

Lemma ascending_Before (key : pystr -> Z) (l : list pystr) (x y : pystr) :
  ascending key l -> Before x y l -> (key x <= key y)%Z.
Proof.
  intros Hasc [l1 [l2 [l3 ->]]].
  induction l1 as [|z l1 IH]; cbn [app ascending] in Hasc.
  - destruct Hasc as [Hx _]. apply Hx. apply in_or_app. right. left. reflexivity.
  - apply IH. exact (proj2 Hasc).
Qed.

(** * Output paths *)

Lemma os_path_join_inj (a b b' : pystr) :
  startswith b [chr_slash] = false -> startswith b' [chr_slash] = false ->
  os_path_join a b = os_path_join a b' -> b = b'.
Proof.
  unfold os_path_join. intros -> ->.
  destruct (str_eqb a [] || endswith a [chr_slash]); intros H.
  - exact (app_inv_head _ _ _ H).
  - apply app_inv_head in H. injection H as H. exact H.
Qed.

Lemma chunk_name_relative (n : nat) : startswith (chunk_name n) [chr_slash] = false.
Proof. reflexivity. Qed.

Lemma chunk_path_inj (self : ProjectFlattener) (n n' : nat) :
  os_path_join (output_dir self) (chunk_name n)
  = os_path_join (output_dir self) (chunk_name n') -> n = n'.
Proof.
  intros H. apply chunk_name_inj.
  exact (os_path_join_inj _ _ _ (chunk_name_relative n) (chunk_name_relative n') H).
Qed.

Lemma chunk_path_not_manifest (self : ProjectFlattener) (n : nat) :
  os_path_join (output_dir self) (chunk_name n)
  <> os_path_join (output_dir self) (str "manifest.json").
Proof.
  intros H.
  apply os_path_join_inj in H; [|apply chunk_name_relative|reflexivity].
  discriminate H.
Qed.

Section Order.

Variable env : Env.
Variable self : ProjectFlattener.

Lemma for_each_process_file_inv3 (Q : list pystr -> locals -> world -> Prop) :
  (forall processed st st' p w w',
      Q processed st w -> process_file env self st p w = (Ok st', w') ->
      Q (processed ++ [p]) st' w') ->
  forall paths processed st w st' w',
    Q processed st w ->
    for_each (process_file env self) paths st w = (Ok st', w') ->
    Q (processed ++ paths) st' w'.
Proof.
  intros Hstep. induction paths as [|p paths IH]; intros processed st w st' w' HQ H.
  - injection H as <- <-. rewrite app_nil_r. exact HQ.
  - cbn [for_each] in H. unfold bind in H.
    destruct (process_file env self st p w) as [[st1 | e] w1] eqn:Hp; [|discriminate].
    replace (processed ++ p :: paths) with ((processed ++ [p]) ++ paths)
      by (rewrite <- app_assoc; reflexivity).
    apply (IH (processed ++ [p]) st1 w1 st' w'); [|exact H].
    apply (Hstep processed st st1 p w w1 HQ Hp).
Qed.

Lemma KeysInv_fresh (st : locals) :
  KeysInv st -> ~ In (chunk_name (chunk_number st)) (map fst (chunks st)).
Proof.
  intros Hkeys Hin. destruct (Hkeys _ Hin) as [j [Hlt E]].
  apply chunk_name_inj in E. lia.
Qed.

Lemma concat_snd_snoc (d : list (pystr * list pystr)) (k : pystr) (l : list pystr) :
  concat (map snd (d ++ [(k, l)])) = concat (map snd d) ++ l.
Proof. rewrite map_app, concat_app. simpl. rewrite app_nil_r. reflexivity. Qed.

(** What a successful write of the current chunk does to the record and to
    the disk. *)
Lemma DiskInv_flush (st : locals) (w : world) (n : nat) :
  BudgetInv env self st -> EntriesInv env self st -> KeysInv st ->
  DiskInv env self (chunks st) w ->
  DiskInv env self
    (chunks st ++ [(chunk_name (chunk_number st), map fst (current_chunk st))])
    {| disk := dict_set (disk w)
                 (os_path_join (output_dir self) (chunk_name (chunk_number st)))
                 (TextFile (chunk_text (chunk_name (chunk_number st))
                              (current_chunk st)));
       attempts := n |}.
Proof.
  intros Hbudget Hentries Hkeys Hdisk name listed Hin. cbn [disk].
  apply in_app_or in Hin. destruct Hin as [Hin | [Hin | []]].
  - destruct (Hdisk name listed Hin) as [contents [Hget Hfst]].
    exists contents. split; [|exact Hfst].
    rewrite dict_get_set_other; [exact Hget|].
    destruct (Hkeys name) as [j [Hlt ->]].
    { apply in_map_iff. exists (name, listed). auto. }
    intros E. apply chunk_path_inj in E. lia.
  - injection Hin as <- <-. exists (current_chunk st).
    split; [apply dict_get_set|]. split; [reflexivity|].
    split; [exact (proj2 Hbudget) | exact Hentries].
Qed.

(** A write of the current chunk that raises touches no recorded chunk:
    at most it leaves a part of a file under the name of the chunk number
    in use, which is not recorded yet. *)
Lemma DiskInv_failed_write (st : locals) (w : world) (data : artifact) :
  KeysInv st -> DiskInv env self (chunks st) w ->
  DiskInv env self (chunks st)
    (after_failed_write env
       (os_path_join (output_dir self) (chunk_name (chunk_number st))) data w).
Proof.
  intros Hkeys Hdisk name listed Hin.
  destruct (Hdisk name listed Hin) as [contents [Hget Hrest]].
  exists contents. split; [|exact Hrest].
  unfold after_failed_write. cbn [disk].
  destruct (written_before_raise env (attempts w)); [|exact Hget].
  rewrite dict_get_set_other; [exact Hget|].
  destruct (Hkeys name) as [j [Hlt ->]].
  { apply in_map_iff. exists (name, listed). auto. }
  intros E. apply chunk_path_inj in E. lia.
Qed.

Lemma OrderInv_initial (w : world) : OrderInv env self [] initial_locals w.
Proof.
  split; [apply BudgetInv_initial|]. split; [constructor|].
  split; [intros k []|]. split; [intros name listed []|].
  exists []. split; [constructor | reflexivity].
Qed.

Lemma EntriesInv_process_file (st st' : locals) (p : pystr) (w w' : world) :
  EntriesInv env self st -> process_file env self st p w = (Ok st', w') ->
  EntriesInv env self st'.
Proof.
  intros Hentries H. pose proof (process_file_cases env self st p w) as C.
  destruct (read_text env p) as [content|] eqn:Hread.
  - cbn zeta in C.
    pose proof (flush_if_over_outcome env self st
                  (estimate_tokens env (file_content_of env self p content)) w) as O.
    destruct (flush_if_over env self st _ w) as [[st1 | e] w1] eqn:F;
      rewrite C in H; injection H as <- <-; [|exact Hentries].
    assert (Hnew : GoodEntry env self
                     (rel_path_of env self p, file_content_of env self p content)).
    { exists p, content. split; [exact Hread | reflexivity]. }
    unfold EntriesInv, append_file. cbn [current_chunk].
    apply Forall_app. split; [|constructor; [exact Hnew | constructor]].
    inversion O as [Hfit | Hover Hne Hw' | Hover Hne Hw']; subst;
      [exact Hentries | constructor].
  - rewrite C in H. injection H as <- <-. exact Hentries.
Qed.

Lemma OrderInv_process_file (processed : list pystr) (st st' : locals)
    (p : pystr) (w w' : world) :
  OrderInv env self processed st w ->
  process_file env self st p w = (Ok st', w') ->
  OrderInv env self (processed ++ [p]) st' w'.
Proof.
  intros [Hbudget [Hentries [Hkeys [Hdisk [packed [Hsub Hpacked]]]]]] H.
  split; [exact (BudgetInv_process_file env self st st' p w w' Hbudget H)|].
  split; [exact (EntriesInv_process_file st st' p w w' Hentries H)|].
  pose proof (process_file_cases env self st p w) as C.
  destruct (read_text env p) as [content|].
  - cbn zeta in C.
    pose proof (flush_if_over_outcome env self st
                  (estimate_tokens env (file_content_of env self p content)) w) as O.
    destruct (flush_if_over env self st _ w) as [[st1 | e] w1] eqn:F;
      rewrite C in H; injection H as <- <-.
    + inversion O as [Hfit | Hover Hne Hw | Hover Hne Hw]; subst.
      * split; [exact Hkeys|]. split; [exact Hdisk|].
        exists (packed ++ [p]). split; [apply Subseq_snoc_keep; exact Hsub|].
        cbn [append_file chunks current_chunk].
        rewrite !map_app, app_assoc, Hpacked. reflexivity.
      * pose proof (KeysInv_fresh st Hkeys) as Hfresh.
        unfold append_file.
        cbn [chunks current_chunk chunk_number].
        rewrite (dict_set_fresh _ _ _ Hfresh).
        split; [|split].
        -- intros k Hin. cbn [chunks chunk_number] in Hin |- *.
           rewrite map_app in Hin. apply in_app_or in Hin.
           destruct Hin as [Hin | [<- | []]].
           ++ destruct (Hkeys k Hin) as [j [Hlt E]]. exists j. split; [lia | exact E].
           ++ exists (chunk_number st). split; [lia | reflexivity].
        -- cbn [chunks]. apply DiskInv_flush; assumption.
        -- exists (packed ++ [p]). split; [apply Subseq_snoc_keep; exact Hsub|].
           cbn [chunks current_chunk]. rewrite concat_snd_snoc.
           cbn [app map fst]. rewrite map_app, <- Hpacked. reflexivity.
    + split; [exact Hkeys|]. split.
      * inversion O; subst. apply DiskInv_failed_write; assumption.
      * exists packed. split; [apply Subseq_snoc_skip; exact Hsub | exact Hpacked].
  - rewrite C in H. injection H as <- <-.
    split; [exact Hkeys|]. split; [exact Hdisk|].
    exists packed. split; [apply Subseq_snoc_skip; exact Hsub | exact Hpacked].
Qed.

Lemma Packed_OrderInv (paths : list pystr) (w0 : world) (st : locals) (w : world) :
  Packed env self paths w0 st w -> OrderInv env self paths st w.
Proof.
  intros H.
  apply (for_each_process_file_inv3 (OrderInv env self) OrderInv_process_file
           paths [] initial_locals w0 st w (OrderInv_initial w0) H).
Qed.

(** The flush behind the loop. *)
Lemma final_flush_order (processed : list pystr) (st st' : locals) (w w' : world) :
  OrderInv env self processed st w ->
  final_flush env self st w = (Ok st', w') ->
  (forall k, In k (map fst (chunks st')) -> exists j, k = chunk_name j)
  /\ DiskInv env self (chunks st') w'
  /\ exists packed,
       Subseq packed processed
       /\ concat (map snd (chunks st')) = map (rel_path_of env self) packed.
Proof.
  intros [Hbudget [Hentries [Hkeys [Hdisk [packed [Hsub Hpacked]]]]]] H.
  unfold final_flush in H.
  destruct (is_nonempty (current_chunk st)) eqn:Hne.
  - unfold bind, write_chunk, fs_write, ret in H.
    destruct (write_raises env (attempts w)); [discriminate|].
    injection H as <- <-. cbn [chunks].
    rewrite (dict_set_fresh _ _ _ (KeysInv_fresh st Hkeys)).
    split; [|split].
    + intros k Hin. rewrite map_app in Hin. apply in_app_or in Hin.
      destruct Hin as [Hin | [<- | []]].
      * destruct (Hkeys k Hin) as [j [_ E]]. exists j. exact E.
      * exists (chunk_number st). reflexivity.
    + apply DiskInv_flush; assumption.
    + exists packed. split; [exact Hsub|].
      rewrite concat_snd_snoc. exact Hpacked.
  - injection H as <- <-. split; [|split; [exact Hdisk|]].
    + intros k Hin. destruct (Hkeys k Hin) as [j [_ E]]. exists j. exact E.
    + exists packed. split; [exact Hsub|]. rewrite <- Hpacked.
      destruct (current_chunk st); [|discriminate].
      cbn [map]. rewrite app_nil_r. reflexivity.
Qed.

(** The manifest is written last and touches no chunk file. *)
Lemma create_chunk_manifest_effect (listed : list (pystr * list pystr))
    (w w' : world) (path : pystr) :
  create_chunk_manifest env self listed w = (Ok path, w') ->
  (forall k, In k (map fst listed) -> exists j, k = chunk_name j) ->
  DiskInv env self listed w ->
  DiskInv env self listed w'
  /\ dict_get (disk w') (os_path_join (output_dir self) (str "manifest.json"))
     = Some (JsonFile (build_manifest self listed)).
Proof.
  unfold create_chunk_manifest, bind, fs_write, ret. intros H Hkeys Hdisk.
  destruct (write_raises env (attempts w)); [discriminate|].
  injection H as _ <-. cbn [disk]. split; [|apply dict_get_set].
  intros name l Hin. destruct (Hdisk name l Hin) as [contents [Hget Hfst]].
  exists contents. split; [|exact Hfst]. cbn [disk].
  rewrite dict_get_set_other; [exact Hget|].
  destruct (Hkeys name) as [j ->].
  { apply in_map_iff. exists (name, l). auto. }
  apply chunk_path_not_manifest.
Qed.

(** The scan writes nothing. It returns the two lists when [resolve]
    returns for every path, and raises at the first path for which it
    does not. *)
Lemma for_each_scan_file_outcome (l : list pystr)
    (lists : list pystr * list pystr) (w : world) :
  ((forall p, In p l -> resolve env p <> None)
   /\ for_each (scan_file env) l lists w
      = (Ok (fst lists ++ filter (selected env) l,
             snd lists ++ filter (fun p => negb (selected env p)) l), w))
  \/ ((exists p, In p l /\ resolve env p = None)
      /\ for_each (scan_file env) l lists w = (Raise ResolveError, w)).
Proof.
  revert lists. induction l as [|p l IH]; intros lists.
  - left. split; [intros p []|]. cbn [for_each filter]. unfold ret.
    rewrite !app_nil_r. destruct lists; reflexivity.
  - cbn [for_each filter]. unfold bind.
    assert (Hstep : scan_file env lists p w
                    = match resolve env p with
                      | Some resolved =>
                          (Ok (if is_relevant_path (replace os_sep chr_slash resolved)
                               then (fst lists ++ [p], snd lists)
                               else (fst lists, snd lists ++ [p])), w)
                      | None => (Raise ResolveError, w)
                      end).
    { unfold scan_file, is_relevant_file, resolved_path.
      destruct (resolve env p); cbn [option_map];
        [destruct (is_relevant_path _)|]; reflexivity. }
    assert (Hsel : selected env p
                   = match resolve env p with
                     | Some resolved =>
                         is_relevant_path (replace os_sep chr_slash resolved)
                     | None => false
                     end).
    { unfold selected, is_relevant_file, resolved_path.
      destruct (resolve env p); reflexivity. }
    rewrite Hstep, Hsel. clear Hstep Hsel.
    destruct (resolve env p) as [resolved|] eqn:Hres.
    + destruct (is_relevant_path (replace os_sep chr_slash resolved));
        cbn [negb];
        (match goal with
         | |- context [for_each (scan_file env) l ?lists' w] =>
             destruct (IH lists') as [[Hall E] | [[q [Hq Hnone]] E]]
         end;
         [left; split;
          [intros q [<- | Hq]; [congruence | exact (Hall q Hq)]
          |rewrite E; cbn [fst snd]; rewrite <- app_assoc; reflexivity]
         |right; split; [exists q; split; [right; exact Hq | exact Hnone] | exact E]]).
    + right. split; [|reflexivity]. exists p. split; [left; reflexivity | exact Hres].
Qed.

Lemma scan_outcome (w : world) :
  (Resolves env self
   /\ scan env self w = (Ok (all_files env self, excluded_files env self), w))
  \/ ((exists p, In p (walk_files env self) /\ resolve env p = None)
      /\ scan env self w = (Raise ResolveError, w)).
Proof. exact (for_each_scan_file_outcome (walk_files env self) ([], []) w). Qed.

(** Behind a scan that returns, [flatten] packs the sorted files. *)
Lemma flatten_after_scan (w0 : world) :
  Resolves env self ->
  flatten env self w0
  = (st <- pack env self (sorted_files env self) ;;
     st' <- final_flush env self st ;;
     create_chunk_manifest env self (chunks st') ;;;
     ret (chunks st')) w0.
Proof.
  intros Hres. unfold flatten. unfold bind at 1.
  destruct (scan_outcome w0) as [[_ E] | [[p [Hin Hnone]] _]].
  - rewrite E. reflexivity.
  - exfalso. exact (Hres p Hin Hnone).
Qed.

(** A path on which [resolve] raises ends the run before anything is
    read or written. *)
Lemma flatten_scan_raises (w0 : world) :
  (exists p, In p (walk_files env self) /\ resolve env p = None) ->
  flatten env self w0 = (Raise ResolveError, w0).
Proof.
  intros [p [Hin Hnone]]. unfold flatten. unfold bind at 1.
  destruct (scan_outcome w0) as [[Hres _] | [_ E]].
  - exfalso. exact (Hres p Hin Hnone).
  - rewrite E. reflexivity.
Qed.

Lemma flatten_returns_resolves (w0 : world) (listed : list (pystr * list pystr))
    (w : world) :
  flatten env self w0 = (Ok listed, w) -> Resolves env self.
Proof.
  intros H. destruct (scan_outcome w0) as [[Hres _] | [Hnone _]]; [exact Hres|].
  rewrite (flatten_scan_raises w0 Hnone) in H. discriminate.
Qed.

Lemma flatten_stages (w0 : world) (listed : list (pystr * list pystr)) (w : world) :
  flatten env self w0 = (Ok listed, w) ->
  exists st w1 st' w2 path,
    Packed env self (sorted_files env self) w0 st w1
    /\ final_flush env self st w1 = (Ok st', w2)
    /\ create_chunk_manifest env self (chunks st') w2 = (Ok path, w)
    /\ listed = chunks st'.
Proof.
  intros H. pose proof (flatten_returns_resolves w0 listed w H) as Hres.
  rewrite (flatten_after_scan w0 Hres) in H. unfold bind at 1 in H.
  destruct (pack env self (sorted_files env self) w0) as [[st | e] w1] eqn:Hp;
    [|discriminate].
  unfold bind at 1 in H.
  destruct (final_flush env self st w1) as [[st' | e] w2] eqn:Hf; [|discriminate].
  unfold bind at 1 in H.
  destruct (create_chunk_manifest env self (chunks st') w2) as [[path | e] w3] eqn:Hm;
    [|discriminate].
  unfold ret in H. injection H as <- <-.
  exists st, w1, st', w2, path. repeat split; assumption.
Qed.

Lemma manifest_lists_chunks (listed : list (pystr * list pystr)) :
  concat (map (fun item => files (snd item))
            (manifest_chunks (build_manifest self listed)))
  = concat (map snd listed).
Proof.
  unfold build_manifest. cbn [manifest_chunks]. rewrite map_map. reflexivity.
Qed.

Lemma Before_of_filter {A : Type} (f : A -> bool) (x y : A) (l : list A) :
  Before x y (filter f l) -> Before x y l.
Proof. apply Subseq_Before, filter_Subseq. Qed.

(** What a run that returns has done. *)
Lemma flatten_outcome (w0 : world) (listed : list (pystr * list pystr))
    (w : world) :
  flatten env self w0 = (Ok listed, w) ->
  exists packed,
    Subseq packed (sorted_files env self)
    /\ concat (map snd listed) = map (rel_path_of env self) packed
    /\ dict_get (disk w) (os_path_join (output_dir self) (str "manifest.json"))
       = Some (JsonFile (build_manifest self listed))
    /\ DiskInv env self listed w.
Proof.
  intros H. destruct (flatten_stages w0 listed w H)
    as [st [w1 [st' [w2 [path [Hp [Hf [Hm ->]]]]]]]].
  destruct (final_flush_order _ _ _ _ _ (Packed_OrderInv _ _ _ _ Hp) Hf)
    as [Hkeys [Hdisk [packed [Hsub Hpacked]]]].
  destruct (create_chunk_manifest_effect _ _ _ _ Hm Hkeys Hdisk) as [Hdisk' Hmanifest].
  exists packed. repeat split; assumption.
Qed.

(** C8. The selected files are ordered by a stable sort on the priority
    key, and a completed run packs them in that order. The sorted list
    holds the selected files, each as often as the scan found it; its keys
    never decrease; and its files of one key stand as the scan found them.
    The files of the chunks returned, of the manifest and of the chunk
    files on disk are a selection, in order, of the sorted list. So of two
    packed files the one listed first never has the larger key, and two
    of the same key are listed in the order in which the directory
    traversal found them. *)
Theorem equal_priority_keeps_discovery_order (w0 : world)
    (listed : list (pystr * list pystr)) (w : world) :
  flatten env self w0 = (Ok listed, w) ->
  exists packed,
    concat (map snd listed) = map (rel_path_of env self) packed
    /\ concat (map (fun item => files (snd item))
                 (manifest_chunks (build_manifest self listed)))
       = map (rel_path_of env self) packed
    /\ dict_get (disk w) (os_path_join (output_dir self) (str "manifest.json"))
       = Some (JsonFile (build_manifest self listed))
    /\ DiskInv env self listed w
    /\ Subseq packed (sorted_files env self)
    /\ (forall k,
          filter (fun p => (get_file_priority self p =? k)%Z) (sorted_files env self)
          = filter (fun p => (get_file_priority self p =? k)%Z) (all_files env self))
    /\ (forall x y,
          get_file_priority self x = get_file_priority self y ->
          Before x y packed -> Before x y (walk_files env self))
    /\ Permutation (sorted_files env self) (all_files env self)
    /\ ascending (get_file_priority self) (sorted_files env self)
    /\ (forall x y,
          Before x y packed ->
          (get_file_priority self x <= get_file_priority self y)%Z).
Proof.
  intros H.
  destruct (flatten_outcome w0 listed w H)
    as [packed [Hsub [Hpacked [Hmanifest Hdisk]]]].
  exists packed. split; [exact Hpacked|].
  split; [rewrite manifest_lists_chunks; exact Hpacked|].
  split; [exact Hmanifest|]. split; [exact Hdisk|]. split; [exact Hsub|].
  split; [intros k; apply list_sort_stable|].
  split; [|split; [apply list_sort_Permutation|split]].
  - intros x y Hkey Hbefore.
    apply (Before_of_filter (selected env)). fold (all_files env self).
    apply (Before_of_filter
             (fun p => (get_file_priority self p =? get_file_priority self x)%Z)).
    rewrite <- list_sort_stable. fold (sorted_files env self).
    apply Before_filter.
    + apply Z.eqb_refl.
    + apply Z.eqb_eq. symmetry. exact Hkey.
    + exact (Subseq_Before x y _ _ Hsub Hbefore).
  - apply list_sort_ascending.
  - intros x y Hbefore.
    apply (ascending_Before (get_file_priority self) (sorted_files env self)).
    + apply list_sort_ascending.
    + exact (Subseq_Before x y _ _ Hsub Hbefore).
Qed.

End Order.

Section Chunks.

Variable env : Env.
Variable self : ProjectFlattener.

Lemma WithinBudget_front (chunk front : list (pystr * pystr)) (last : pystr * pystr) :
  WithinBudget env self chunk -> chunk = front ++ [last] -> front <> [] ->
  (chunk_tokens env front <= tokens_per_file self)%Z.
Proof.
  intros Hbudget -> Hne. unfold WithinBudget in Hbudget.
  rewrite length_app, chunk_tokens_app in Hbudget. cbn [length] in Hbudget.
  assert (Hlen : 2 <= length front + 1).
  { destruct front; [congruence | simpl; lia]. }
  specialize (Hbudget Hlen).
  pose proof (chunk_tokens_nonneg env [last]). lia.
Qed.

Lemma chunk_tokens_In (chunk : list (pystr * pystr)) (e : pystr * pystr) :
  In e chunk -> (estimate_tokens env (snd e) <= chunk_tokens env chunk)%Z.
Proof.
  induction chunk as [|x chunk IH]; intros Hin; [destruct Hin|].
  cbn [chunk_tokens fold_right]. fold (chunk_tokens env chunk).
  pose proof (chunk_tokens_nonneg env chunk).
  pose proof (estimate_tokens_nonneg env (snd x)).
  destruct Hin as [<- | Hin]; [lia|]. specialize (IH Hin). lia.
Qed.

(** An entry that alone exceeds the budget shares its chunk with no
    other. *)
Lemma oversized_entry_alone (chunk : list (pystr * pystr)) (e : pystr * pystr) :
  WithinBudget env self chunk -> In e chunk ->
  (estimate_tokens env (snd e) > tokens_per_file self)%Z ->
  chunk = [e].
Proof.
  intros Hbudget Hin Hbig. pose proof (chunk_tokens_In chunk e Hin) as Hle.
  unfold WithinBudget in Hbudget.
  destruct chunk as [|x [|y chunk]].
  - destruct Hin.
  - destruct Hin as [-> | []]. reflexivity.
  - exfalso. assert (Hlen : 2 <= length (x :: y :: chunk)) by (simpl; lia).
    specialize (Hbudget Hlen). lia.
Qed.

(** The text of a chunk holds the annotated content of each of its
    entries in one piece. *)
Lemma chunk_text_contains (name : pystr) (contents : list (pystr * pystr))
    (e : pystr * pystr) :
  In e contents -> Infix (snd e) (chunk_text name contents).
Proof.
  intros Hin. apply in_split in Hin. destruct Hin as [l1 [l2 ->]].
  unfold chunk_text. rewrite (map_app snd), concat_app. cbn [map concat].
  rewrite !app_assoc. rewrite <- (app_assoc _ (snd e)).
  eexists _, _. reflexivity.
Qed.

(** What a chunk file recorded as written holds: each entry is the
    annotated content of a file that was read, it stands in the text of
    the chunk in one piece, and an entry that alone exceeds the budget is
    the only one of its chunk. *)
Lemma chunk_on_disk (listed : list (pystr * list pystr)) (w : world)
    (name : pystr) (paths : list pystr) :
  DiskInv env self listed w -> In (name, paths) listed ->
  exists contents,
    dict_get (disk w) (os_path_join (output_dir self) name)
    = Some (TextFile (chunk_text name contents))
    /\ map fst contents = paths
    /\ forall e, In e contents ->
          GoodEntry env self e
          /\ Infix (snd e) (chunk_text name contents)
          /\ ((estimate_tokens env (snd e) > tokens_per_file self)%Z ->
              contents = [e]).
Proof.
  intros Hdisk Hin.
  destruct (Hdisk name paths Hin) as [contents [Hget [Hfst [Hbudget Hgood]]]].
  exists contents. split; [exact Hget|]. split; [exact Hfst|].
  intros e He. split; [|split].
  - rewrite Forall_forall in Hgood. exact (Hgood e He).
  - exact (chunk_text_contains name contents e He).
  - exact (oversized_entry_alone contents e Hbudget He).
Qed.

End Chunks.

Section Runs.

Variable env : Env.
Variable self : ProjectFlattener.

Lemma pack_returns (paths : list pystr) (st0 : locals) (w0 : world) :
  exists st w, for_each (process_file env self) paths st0 w0 = (Ok st, w).
Proof.
  revert st0 w0. induction paths as [|p paths IH]; intros st0 w0.
  - exists st0, w0. reflexivity.
  - destruct (process_file_ok env self st0 p w0) as [st1 [w1 H1]].
    destruct (IH st1 w1) as [st [w H]].
    exists st, w. cbn [for_each]. unfold bind. rewrite H1. exact H.
Qed.



(** When no write raises, every selected file that can be read is packed,
    in sorted order. *)
Lemma process_file_complete (processed : list pystr) (st st' : locals)
    (p : pystr) (w w' : world) :
  (forall n, write_raises env n = false) ->
  concat (map snd (chunks st)) ++ map fst (current_chunk st)
  = map (rel_path_of env self) (filter (readable env) processed) ->
  KeysInv st ->
  process_file env self st p w = (Ok st', w') ->
  concat (map snd (chunks st')) ++ map fst (current_chunk st')
  = map (rel_path_of env self) (filter (readable env) (processed ++ [p])).
Proof.
  intros Hw Hpacked Hkeys H. rewrite filter_app. cbn [filter]. unfold readable at 2.
  pose proof (process_file_cases env self st p w) as C.
  destruct (read_text env p) as [content|].
  - cbn zeta in C.
    pose proof (flush_if_over_outcome env self st
                  (estimate_tokens env (file_content_of env self p content)) w) as O.
    destruct (flush_if_over env self st _ w) as [[st1 | e] w1] eqn:F;
      rewrite C in H; injection H as <- <-.
    + inversion O as [Hfit | Hover Hne Hw' | Hover Hne Hw']; subst.
      * unfold append_file. cbn [chunks current_chunk].
        rewrite !map_app, app_assoc, Hpacked. reflexivity.
      * unfold append_file. cbn [chunks current_chunk].
        rewrite (dict_set_fresh _ _ _ (KeysInv_fresh st Hkeys)), concat_snd_snoc.
        cbn [app map fst]. rewrite map_app, <- Hpacked. reflexivity.
    + inversion O as [| |Hover Hne Hw']; subst. rewrite Hw in Hw'. discriminate.
  - rewrite C in H. injection H as <- <-. rewrite app_nil_r. exact Hpacked.
Qed.

Lemma KeysInv_process_file (st st' : locals) (p : pystr) (w w' : world) :
  KeysInv st -> process_file env self st p w = (Ok st', w') -> KeysInv st'.
Proof.
  intros Hkeys H. pose proof (process_file_cases env self st p w) as C.
  destruct (read_text env p) as [content|].
  - cbn zeta in C.
    pose proof (flush_if_over_outcome env self st
                  (estimate_tokens env (file_content_of env self p content)) w) as O.
    destruct (flush_if_over env self st _ w) as [[st1 | e] w1] eqn:F;
      rewrite C in H; injection H as <- <-; [|exact Hkeys].
    inversion O as [Hfit | Hover Hne Hw' | Hover Hne Hw']; subst; [exact Hkeys|].
    intros k Hin. unfold append_file in Hin |- *.
    cbn [chunks chunk_number] in Hin |- *.
    rewrite (dict_set_fresh _ _ _ (KeysInv_fresh st Hkeys)), map_app in Hin.
    apply in_app_or in Hin. destruct Hin as [Hin | [<- | []]].
    + destruct (Hkeys k Hin) as [j [Hlt E]]. exists j. split; [lia | exact E].
    + exists (chunk_number st). split; [lia | reflexivity].
  - rewrite C in H. injection H as <- <-. exact Hkeys.
Qed.

Lemma pack_complete (paths : list pystr) (w0 : world) (st : locals) (w : world) :
  (forall n, write_raises env n = false) ->
  Packed env self paths w0 st w ->
  concat (map snd (chunks st)) ++ map fst (current_chunk st)
  = map (rel_path_of env self) (filter (readable env) paths).
Proof.
  intros Hw H.
  apply (for_each_process_file_inv3 env self
           (fun processed st _ =>
              KeysInv st
              /\ concat (map snd (chunks st)) ++ map fst (current_chunk st)
                 = map (rel_path_of env self) (filter (readable env) processed))
           ) with (processed := []) in H.
  - exact (proj2 H).
  - intros processed s s' p w1 w2 [Hkeys Hpacked] Hp. split.
    + exact (KeysInv_process_file s s' p w1 w2 Hkeys Hp).
    + exact (process_file_complete processed s s' p w1 w2 Hw Hpacked Hkeys Hp).
  - split; [intros k []|reflexivity].
Qed.

Lemma build_manifest_counts (listed : list (pystr * list pystr)) :
  total_chunks (build_manifest self listed) = length listed
  /\ map fst (manifest_chunks (build_manifest self listed)) = map fst listed
  /\ Forall (fun item => file_count (snd item) = length (files (snd item)))
       (manifest_chunks (build_manifest self listed)).
Proof.
  unfold build_manifest. cbn [total_chunks manifest_chunks].
  split; [reflexivity|]. split.
  - rewrite map_map. reflexivity.
  - apply Forall_forall. intros item Hin. apply in_map_iff in Hin.
    destruct Hin as [x [<- _]]. reflexivity.
Qed.

(** When the scan returns and no write raises, the run completes and the
    chunks it records hold, in sorted order, exactly the selected files
    that can be read. *)
Lemma flatten_complete_when_writes_succeed (w0 : world) :
  Resolves env self ->
  (forall n, write_raises env n = false) ->
  exists listed w,
    flatten env self w0 = (Ok listed, w)
    /\ concat (map snd listed)
       = map (rel_path_of env self) (filter (readable env) (sorted_files env self)).
Proof.
  intros Hres Hw.
  destruct (pack_returns (sorted_files env self) initial_locals w0) as [st [w1 Hp]].
  pose proof (pack_complete _ _ _ _ Hw Hp) as Hpacked.
  destruct (Packed_OrderInv env self _ _ _ _ Hp) as [_ [_ [Hkeys _]]].
  rewrite (flatten_after_scan env self w0 Hres).
  unfold bind at 1. unfold pack. rewrite Hp.
  unfold bind at 1, final_flush.
  destruct (is_nonempty (current_chunk st)) eqn:Hne.
  - unfold bind at 1, write_chunk, fs_write. rewrite Hw. unfold ret at 1.
    unfold bind at 1, create_chunk_manifest, bind at 1, fs_write. cbn [attempts].
    rewrite Hw. unfold ret. cbn [chunks].
    eexists _, _. split; [reflexivity|].
    rewrite (dict_set_fresh _ _ _ (KeysInv_fresh st Hkeys)), concat_snd_snoc.
    exact Hpacked.
  - unfold ret at 1.
    unfold bind at 1, create_chunk_manifest, bind at 1, fs_write.
    rewrite Hw. unfold ret.
    eexists _, _. split; [reflexivity|].
    rewrite <- Hpacked. destruct (current_chunk st); [|discriminate].
    cbn [map]. rewrite app_nil_r. reflexivity.
Qed.

(** When the scan returns and no write raises, the manifest of the run
    is on disk and lists each selected file that can be read, in exactly
    one place if the relative paths of the files found are distinct. *)
Lemma manifest_complete_when_writes_succeed (w0 : world) :
  Resolves env self ->
  (forall n, write_raises env n = false) ->
  exists listed w,
    flatten env self w0 = (Ok listed, w)
    /\ dict_get (disk w) (os_path_join (output_dir self) (str "manifest.json"))
       = Some (JsonFile (build_manifest self listed))
    /\ concat (map (fun item => files (snd item))
                 (manifest_chunks (build_manifest self listed)))
       = map (rel_path_of env self) (filter (readable env) (sorted_files env self))
    /\ (forall r,
          In r (concat (map snd listed)) <->
          exists p, In p (all_files env self) /\ readable env p = true
                    /\ r = rel_path_of env self p)
    /\ (NoDup (map (rel_path_of env self) (all_files env self)) ->
        NoDup (concat (map snd listed))).
Proof.
  intros Hres Hw. destruct (flatten_complete_when_writes_succeed w0 Hres Hw)
    as [listed [w [H Hlisted]]].
  exists listed, w. split; [exact H|].
  destruct (flatten_outcome env self w0 listed w H)
    as [packed [_ [_ [Hmanifest _]]]].
  split; [exact Hmanifest|].
  split; [rewrite manifest_lists_chunks; exact Hlisted|]. split.
  - intros r. rewrite Hlisted, in_map_iff. split.
    + intros [p [<- Hp]]. apply filter_In in Hp. destruct Hp as [Hp Hr].
      exists p. split; [|split; [exact Hr | reflexivity]].
      apply (list_sort_In (get_file_priority self)). exact Hp.
    + intros [p [Hp [Hr ->]]]. exists p. split; [reflexivity|].
      apply filter_In. split; [|exact Hr].
      apply (list_sort_In (get_file_priority self)). exact Hp.
  - intros Hnd. rewrite Hlisted.
    apply (Subseq_NoDup _ (map (rel_path_of env self) (sorted_files env self))).
    + apply Subseq_map, filter_Subseq.
    + apply (Permutation_NoDup (l := map (rel_path_of env self) (all_files env self)));
        [|exact Hnd].
      apply Permutation_map, Permutation_sym, list_sort_Permutation.
Qed.

End Runs.

(** C3. At every point of the loop the counter is the cost of the chunk
    under construction. When a file is appended to a chunk that already
    holds an entry, the counter at that moment is within the budget, and
    so is the counter with the cost of the file added. Hence in every
    chunk of two or more files, under construction or flushed to disk, the
    cost of all files but the last, which is the running total just
    before the last one was appended, is within the budget. *)
Theorem budget_respected_at_append (env : Env) (self : ProjectFlattener)
    (paths : list pystr) (w0 : world) (st : locals) (w : world) :
  Packed env self paths w0 st w ->
  current_token_count st = chunk_tokens env (current_chunk st)
  /\ (forall front last,
        current_chunk st = front ++ [last] -> front <> [] ->
        (chunk_tokens env front <= tokens_per_file self)%Z)
  /\ (forall name listed,
        In (name, listed) (chunks st) ->
        exists contents,
          dict_get (disk w) (os_path_join (output_dir self) name)
          = Some (TextFile (chunk_text name contents))
          /\ map fst contents = listed
          /\ forall front last,
               contents = front ++ [last] -> front <> [] ->
               (chunk_tokens env front <= tokens_per_file self)%Z)
  /\ (forall file_path content st1 w1,
        read_text env file_path = Some content ->
        let file_content := file_content_of env self file_path content in
        let file_tokens := estimate_tokens env file_content in
        flush_if_over env self st file_tokens w = (Ok st1, w1) ->
        current_chunk st1 <> [] ->
        process_file env self st file_path w
        = (Ok (append_file st1 (rel_path_of env self file_path) file_content
                 file_tokens), w1)
        /\ (current_token_count st1 <= tokens_per_file self)%Z
        /\ (current_token_count st1 + file_tokens <= tokens_per_file self)%Z).
Proof.
  intros H.
  destruct (Packed_OrderInv env self paths w0 st w H) as [Hinv [_ [_ [Hdisk _]]]].
  split; [exact (proj1 Hinv)|]. split; [|split].
  - intros front last E Hne.
    exact (WithinBudget_front env self _ front last (proj2 Hinv) E Hne).
  - intros name listed Hin.
    destruct (Hdisk name listed Hin) as [contents [Hget [Hfst [Hbudget _]]]].
    exists contents. split; [exact Hget|]. split; [exact Hfst|].
    intros front last E Hne.
    exact (WithinBudget_front env self _ front last Hbudget E Hne).
  - intros file_path content st1 w1 Hread file_content file_tokens F Hne.
    pose proof (process_file_cases env self st file_path w) as C.
    rewrite Hread in C. cbn zeta in C. fold file_content file_tokens in C.
    rewrite F in C. split; [exact C|].
    destruct (BudgetInv_flush env self st st1 file_tokens w w1 Hinv F) as [_ Hfit].
    specialize (Hfit Hne).
    pose proof (estimate_tokens_nonneg env file_content) as Hpos.
    fold file_tokens in Hpos. lia.
Qed.

Lemma budget_respected_at_append_witness :
  exists st w,
    Packed (two_files_env never_raises) (demo_flattener 100 [])
      [str "/p/a.ts"; str "/p/b.ts"] empty_world st w
    /\ length (current_chunk st) = 2
    /\ (chunk_tokens (two_files_env never_raises) (firstn 1 (current_chunk st))
        <= 100)%Z.
Proof.
  destruct (pack (two_files_env never_raises) (demo_flattener 100 [])
              [str "/p/a.ts"; str "/p/b.ts"] empty_world)
    as [[st | e] w] eqn:H; [|vm_compute in H; discriminate].
  exists st, w.
  pose proof (budget_respected_at_append _ _ _ _ _ _ H) as [_ [Hfront _]].
  vm_compute in H. injection H as <- <-.
  split; [reflexivity|]. split; [reflexivity|].
  exact (Hfront
           [(str "a.ts",
             file_content_of (two_files_env never_raises) (demo_flattener 100 [])
               (str "/p/a.ts") (str "x"))]
           (str "b.ts",
            file_content_of (two_files_env never_raises) (demo_flattener 100 [])
              (str "/p/b.ts") (str "x"))
           eq_refl ltac:(discriminate)).
Defined.

Lemma equal_priority_keeps_discovery_order_witness :
  walk_files (mixed_env never_raises) (demo_flattener 1000 [])
  = [str "/p/z.ts"; str "/p/y.ts"; str "/p/components/b.ts";
     str "/p/components/a.ts"]
  /\ map (get_file_priority (demo_flattener 1000 []))
       (walk_files (mixed_env never_raises) (demo_flattener 1000 []))
     = [99%Z; 99%Z; 1%Z; 1%Z]
  /\ exists listed w packed,
       flatten (mixed_env never_raises) (demo_flattener 1000 []) empty_world
       = (Ok listed, w)
       /\ listed = [(str "chunk_1.txt",
                     [str "components/b.ts"; str "components/a.ts"; str "z.ts";
                      str "y.ts"])]
       /\ concat (map snd listed)
          = map (rel_path_of (mixed_env never_raises) (demo_flattener 1000 []))
              packed
       /\ Subseq packed
            (sorted_files (mixed_env never_raises) (demo_flattener 1000 []))
       /\ ascending (get_file_priority (demo_flattener 1000 []))
            (sorted_files (mixed_env never_raises) (demo_flattener 1000 []))
       /\ forall x y,
            Before x y packed ->
            (get_file_priority (demo_flattener 1000 []) x
             <= get_file_priority (demo_flattener 1000 []) y)%Z.
Proof.
  split; [reflexivity|]. split; [reflexivity|].
  destruct (flatten (mixed_env never_raises) (demo_flattener 1000 []) empty_world)
    as [[listed | e] w] eqn:H; [|vm_compute in H; discriminate].
  destruct (equal_priority_keeps_discovery_order _ _ _ _ _ H)
    as [packed [Hlisted [_ [_ [_ [Hsub [_ [_ [_ [Hasc Hle]]]]]]]]]].
  exists listed, w, packed.
  split; [reflexivity|].
  split; [vm_compute in H; injection H as <- _; reflexivity|].
  split; [exact Hlisted|]. split; [exact Hsub|]. split; [exact Hasc | exact Hle].
Defined.

(** C2 fails on the code. The first write of [chunk_1.txt] raises inside
    the loop; the handler of the [try] swallows the error, the file being
    processed is dropped, and the run goes on to write the chunk and the
    manifest and returns normally. *)
Lemma write_error_inside_loop_is_swallowed :
  write_raises (two_files_env first_write_raises) 0 = true
  /\ fst (flatten (two_files_env first_write_raises) (demo_flattener 50 [])
            empty_world)
     = Ok [(str "chunk_1.txt", [str "a.ts"])]
  /\ dict_get
       (disk (snd (flatten (two_files_env first_write_raises)
                     (demo_flattener 50 []) empty_world)))
       (str "flattened_output/manifest.json")
     = Some (JsonFile
               {| manifest_project_path := str "/p";
                  total_chunks := 1;
                  manifest_chunks :=
                    [(str "chunk_1.txt",
                      {| files := [str "a.ts"]; file_count := 1 |})] |})
  /\ attempts (snd (flatten (two_files_env first_write_raises)
                      (demo_flattener 50 []) empty_world)) = 3.
Proof. repeat split; vm_compute; reflexivity. Qed.

(** C4 fails on the code. [b.ts] is selected, is read, and alone costs 44
    tokens against a budget of 40; the write it triggers raises, the
    handler of the [try] drops the file, and the completed run has it in
    no chunk. *)
Lemma oversized_file_dropped_after_write_error :
  is_relevant_file (two_files_env first_write_raises) (str "/p/b.ts") = Some true
  /\ read_text (two_files_env first_write_raises) (str "/p/b.ts") = Some (str "x")
  /\ estimate_tokens (two_files_env first_write_raises)
       (file_content_of (two_files_env first_write_raises) (demo_flattener 40 [])
          (str "/p/b.ts") (str "x")) = 44%Z
  /\ fst (flatten (two_files_env first_write_raises) (demo_flattener 40 [])
            empty_world)
     = Ok [(str "chunk_1.txt", [str "a.ts"])].
Proof. repeat split; vm_compute; reflexivity. Qed.

(** C5 fails on the code. Three files are selected and read; the write
    that [b.ts] triggers raises, the handler of the [try] drops [b.ts],
    and the manifest of the completed run lists [a.ts] and [c.ts] only. *)
Lemma manifest_misses_file_after_write_error :
  map (rel_path_of (three_files_env first_write_raises) (demo_flattener 50 []))
    (filter (readable (three_files_env first_write_raises))
       (all_files (three_files_env first_write_raises) (demo_flattener 50 [])))
  = [str "a.ts"; str "b.ts"; str "c.ts"]
  /\ fst (flatten (three_files_env first_write_raises) (demo_flattener 50 [])
            empty_world)
     = Ok [(str "chunk_1.txt", [str "a.ts"]); (str "chunk_2.txt", [str "c.ts"])]
  /\ dict_get
       (disk (snd (flatten (three_files_env first_write_raises)
                     (demo_flattener 50 []) empty_world)))
       (str "flattened_output/manifest.json")
     = Some (JsonFile
               {| manifest_project_path := str "/p";
                  total_chunks := 2;
                  manifest_chunks :=
                    [(str "chunk_1.txt",
                      {| files := [str "a.ts"]; file_count := 1 |});
                     (str "chunk_2.txt",
                      {| files := [str "c.ts"]; file_count := 1 |})] |}).
Proof. repeat split; vm_compute; reflexivity. Qed.

(** * Further properties: the estimator *)

(** X1. [estimate_tokens] never returns a negative number; when the
    tokenizer raises, the result is the length of the text divided by
    four, rounded down. *)
Theorem estimate_tokens_bounds (env : Env) (text : pystr) :
  (0 <= estimate_tokens env text)%Z
  /\ (encode env text = None ->
      (4 * estimate_tokens env text <= Z.of_nat (length text)
       < 4 * estimate_tokens env text + 4)%Z).
Proof.
  split; [apply estimate_tokens_nonneg|].
  intros Hnone. unfold estimate_tokens. rewrite Hnone.
  pose proof (Z.div_mod (Z.of_nat (length text)) 4 ltac:(lia)) as Hdiv.
  pose proof (Z.mod_pos_bound (Z.of_nat (length text)) 4 ltac:(lia)) as Hmod.
  lia.
Qed.

Lemma estimate_tokens_bounds_witness :
  (4 * estimate_tokens plain_env (str "const x = 1;") <= 12
   < 4 * estimate_tokens plain_env (str "const x = 1;") + 4)%Z.
Proof.
  exact (proj2 (estimate_tokens_bounds plain_env (str "const x = 1;")) eq_refl).
Defined.

(** * Further properties: segments *)

Lemma split_sepfree (sep : N) (d : pystr) : ~ In sep d -> split sep d = [d].
Proof.
  induction d as [|c d IH]; intros Hd; [reflexivity|]. simpl.
  destruct (N.eqb_spec c sep) as [E | _].
  - exfalso. apply Hd. left. exact E.
  - rewrite IH; [reflexivity|]. intros Hin. apply Hd. right. exact Hin.
Qed.

Lemma split_app_sep (sep : N) (a t : pystr) :
  split sep (a ++ sep :: t) = split sep a ++ split sep t.
Proof.
  induction a as [|c a IH]; simpl.
  - rewrite N.eqb_refl. reflexivity.
  - destruct (N.eqb c sep); rewrite IH; [reflexivity|].
    destruct (split sep a) as [|w ws] eqn:E; [exfalso; exact (split_not_nil _ _ E)|].
    reflexivity.
Qed.

Lemma In_removelast_inv {A : Type} (x : A) (l : list A) :
  In x (removelast l) -> exists l1 l2, l = l1 ++ x :: l2 /\ l2 <> [].
Proof.
  induction l as [|y l IH]; [intros []|].
  destruct l as [|z l]; [intros []|].
  cbn [removelast]. intros [<- | Hin].
  - exists [], (z :: l). split; [reflexivity | discriminate].
  - destruct (IH Hin) as [l1 [l2 [E Hne]]].
    exists (y :: l1), l2. split; [simpl; rewrite E; reflexivity | exact Hne].
Qed.

Lemma app_cons_nonnil {A : Type} (l1 l2 : list A) (x : A) : l1 ++ x :: l2 <> [].
Proof. destruct l1; simpl; discriminate. Qed.

(** A name between two slashes is an inner segment, and conversely. *)
Lemma Infix_inner_segment (d s : pystr) :
  ~ In chr_slash d ->
  Infix (chr_slash :: d ++ [chr_slash]) s <-> In d (inner_segments s).
Proof.
  intros Hd. unfold inner_segments, later_segments. split.
  - intros [a [b ->]].
    change (a ++ (chr_slash :: d ++ [chr_slash]) ++ b)
      with (a ++ chr_slash :: ((d ++ [chr_slash]) ++ b)).
    rewrite <- app_assoc. cbn [app].
    rewrite split_app_sep, (split_sepfree_app chr_slash d b Hd).
    destruct (split chr_slash a) as [|w ws] eqn:E;
      [exfalso; exact (split_not_nil _ _ E)|].
    cbn [app tl]. rewrite removelast_app by discriminate.
    apply in_or_app. right.
    destruct (split chr_slash b) eqn:Eb; [exfalso; exact (split_not_nil _ _ Eb)|].
    left. reflexivity.
  - intros Hin. apply In_removelast_inv in Hin.
    destruct Hin as [l1 [l2 [E Hne]]].
    rewrite <- (join_split chr_slash s).
    destruct (split chr_slash s) as [|w l] eqn:Es;
      [exfalso; exact (split_not_nil _ _ Es)|].
    cbn [tl] in E. subst l.
    rewrite join_cons by apply app_cons_nonnil.
    apply Infix_app_l. apply joined_has_segment. exact Hne.
Qed.

(** A name after a slash, followed by a slash or by the end of the path,
    is a segment other than the first, and conversely. *)
Lemma Infix_or_Suffix_segment (d s : pystr) :
  ~ In chr_slash d ->
  (Infix (chr_slash :: d ++ [chr_slash]) s \/ Suffix (chr_slash :: d) s)
  <-> In d (later_segments s).
Proof.
  intros Hd. unfold later_segments. split.
  - intros [H | [a ->]].
    + apply (Infix_inner_segment d s Hd) in H.
      unfold inner_segments, later_segments in H.
      destruct (In_removelast_inv _ _ H) as [l1 [l2 [E _]]]. rewrite E.
      apply in_or_app. right. left. reflexivity.
    + rewrite split_app_sep, (split_sepfree chr_slash d Hd).
      destruct (split chr_slash a) as [|w ws] eqn:E;
        [exfalso; exact (split_not_nil _ _ E)|].
      cbn [app tl]. apply in_or_app. right. left. reflexivity.
  - intros Hin. apply in_split in Hin. destruct Hin as [l1 [l2 E]].
    destruct l2 as [|x l2].
    + right. rewrite <- (join_split chr_slash s).
      destruct (split chr_slash s) as [|w l] eqn:Es;
      [exfalso; exact (split_not_nil _ _ Es)|].
      cbn [tl] in E. subst l.
      rewrite join_cons by apply app_cons_nonnil.
      clear. revert w. induction l1 as [|y l1 IH]; intros w.
      * exists w. reflexivity.
      * change ((y :: l1) ++ [d]) with (y :: (l1 ++ [d])).
        rewrite (join_cons _ y) by apply app_cons_nonnil.
        destruct (IH y) as [t Ht]. exists (w ++ [chr_slash] ++ t).
        cbn [app] in Ht |- *. rewrite Ht, <- !app_assoc. reflexivity.
    + left. apply (Infix_inner_segment d s Hd).
      unfold inner_segments, later_segments. rewrite E.
      rewrite removelast_app by discriminate. apply in_or_app. right.
      left. reflexivity.
Qed.

Lemma sepfree_b (c : N) (d : pystr) : existsb (N.eqb c) d = false -> ~ In c d.
Proof.
  intros Hb Hin. assert (existsb (N.eqb c) d = true) as Ht.
  { apply existsb_exists. exists c. split; [exact Hin | apply N.eqb_refl]. }
  congruence.
Qed.

Lemma names_sepfree (names : list pystr) (d : pystr) :
  forallb (fun n => negb (existsb (N.eqb chr_slash) n)) names = true ->
  In d names -> ~ In chr_slash d.
Proof.
  intros Hall Hin. rewrite forallb_forall in Hall.
  apply sepfree_b. specialize (Hall d Hin).
  destruct (existsb (N.eqb chr_slash) d); [discriminate | reflexivity].
Qed.

Lemma excluded_dirs_sepfree (d : pystr) : In d excluded_dirs -> ~ In chr_slash d.
Proof. apply names_sepfree. vm_compute. reflexivity. Qed.

Lemma Suffix_comparable (a b s : pystr) :
  Suffix a s -> Suffix b s -> length a <= length b -> Suffix a b.
Proof.
  intros [t1 ->] [t2 E] Hlen. apply app_eq_app in E.
  destruct E as [l [[-> ->] | [-> ->]]].
  - exists l. reflexivity.
  - rewrite length_app in Hlen. destruct l; [|simpl in Hlen; lia].
    exists []. reflexivity.
Qed.

Lemma Suffix_trans (a b s : pystr) : Suffix a b -> Suffix b s -> Suffix a s.
Proof. intros [t1 ->] [t2 ->]. exists (t2 ++ t1). apply app_assoc. Qed.

Lemma endswith_false (s p : pystr) : endswith s p = false <-> ~ Suffix p s.
Proof.
  rewrite <- endswith_Suffix. destruct (endswith s p).
  - split; [discriminate | intros H; exfalso; apply H; reflexivity].
  - split; [intros _; discriminate | reflexivity].
Qed.

(** * Further properties: the selector *)

Lemma excluded_rule (d path : pystr) :
  In d excluded_dirs ->
  str_in (str "/" ++ d ++ str "/") path || endswith path (str "/" ++ d) = true
  <-> In d (later_segments path).
Proof.
  intros Hd. rewrite orb_true_iff, str_in_Infix, endswith_Suffix.
  apply Infix_or_Suffix_segment. apply excluded_dirs_sepfree. exact Hd.
Qed.

Lemma is_relevant_path_iff (path : pystr) :
  is_relevant_path path = true <->
  (forall d, In d excluded_dirs -> ~ In d (later_segments path))
  /\ (exists ext, In ext extensions /\ Suffix ext path)
  /\ ~ Suffix (str ".test.ts") path
  /\ ~ Suffix (str ".test.tsx") path.
Proof.
  unfold is_relevant_path.
  match goal with
  | |- context [existsb ?f excluded_dirs] =>
      destruct (existsb f excluded_dirs) eqn:Hex
  end.
  { split; [discriminate|]. intros [Hno _]. exfalso.
    apply existsb_exists in Hex. destruct Hex as [d [Hd Hrule]].
    apply (excluded_rule d path Hd) in Hrule. exact (Hno d Hd Hrule). }
  assert (forall d, In d excluded_dirs -> ~ In d (later_segments path)) as Hno.
  { intros d Hd Hin. apply (excluded_rule d path Hd) in Hin.
    assert (existsb (fun excluded =>
              str_in (str "/" ++ excluded ++ str "/") path
              || endswith path (str "/" ++ excluded)) excluded_dirs = true) as Ht.
    { apply existsb_exists. exists d. split; assumption. }
    congruence. }
  destruct (existsb (fun ext => endswith path ext) extensions) eqn:Hext; cbn [negb].
  2:{ split; [discriminate|]. intros [_ [[ext [Hin Hsuf]] _]]. exfalso.
      apply endswith_Suffix in Hsuf.
      assert (existsb (fun ext => endswith path ext) extensions = true) as Ht.
      { apply existsb_exists. exists ext. split; assumption. }
      congruence. }
  apply existsb_exists in Hext. destruct Hext as [ext [Hin Hsuf]].
  apply endswith_Suffix in Hsuf.
  destruct (endswith path (str ".test.ts")) eqn:H1.
  { split; [discriminate|]. intros [_ [_ [Hn _]]]. exfalso.
    apply Hn. apply endswith_Suffix. exact H1. }
  destruct (endswith path (str ".test.tsx")) eqn:H2.
  { split; [discriminate|]. intros [_ [_ [_ Hn]]]. exfalso.
    apply Hn. apply endswith_Suffix. exact H2. }
  cbn [orb]. split; [|reflexivity]. intros _.
  split; [exact Hno|]. split; [exists ext; split; assumption|].
  split; apply endswith_false; assumption.
Qed.

Lemma is_relevant_file_iff (env : Env) (file_path : pystr) :
  is_relevant_file env file_path = Some true <->
  exists path,
    resolved_path env file_path = Some path
    /\ (forall d, In d excluded_dirs -> ~ In d (later_segments path))
    /\ (exists ext, In ext extensions /\ Suffix ext path)
    /\ ~ Suffix (str ".test.ts") path
    /\ ~ Suffix (str ".test.tsx") path.
Proof.
  unfold is_relevant_file.
  destruct (resolved_path env file_path) as [path|]; cbn [option_map].
  - split.
    + intros H. injection H as H. exists path. split; [reflexivity|].
      apply is_relevant_path_iff. exact H.
    + intros [path' [E H]]. injection E as <-. f_equal.
      apply is_relevant_path_iff. exact H.
  - split; [discriminate | intros [path [E _]]; discriminate].
Qed.

(** X2. [is_relevant_file] answers [True] exactly when [resolve] returns
    and no segment of the resolved path after the first is an excluded
    directory name, the path ends with one of the seven extensions, and
    it ends with neither [.test.ts] nor [.test.tsx]. *)
Theorem is_relevant_file_accepts_iff (env : Env) (file_path : pystr) :
  is_relevant_file env file_path = Some true <->
  exists path,
    resolved_path env file_path = Some path
    /\ (forall d, In d excluded_dirs -> ~ In d (later_segments path))
    /\ (exists ext, In ext extensions /\ Suffix ext path)
    /\ ~ Suffix (str ".test.ts") path
    /\ ~ Suffix (str ".test.tsx") path.
Proof. apply is_relevant_file_iff. Qed.

Lemma is_relevant_file_accepts_iff_witness :
  exists path,
    resolved_path plain_env (str "/p/src/a.ts") = Some path
    /\ (exists ext, In ext extensions /\ Suffix ext path)
    /\ ~ Suffix (str ".test.ts") path.
Proof.
  destruct (proj1 (is_relevant_file_accepts_iff plain_env (str "/p/src/a.ts"))
              eq_refl) as [path [E [_ [Hext [Hts _]]]]].
  exists path. split; [exact E|]. split; [exact Hext | exact Hts].
Defined.

(** X3. The test-file rule covers TypeScript only: a file whose resolved
    path ends with [.test.js] or [.test.jsx] and has no excluded directory
    name among its segments after the first is accepted. *)
Theorem javascript_test_files_accepted (env : Env) (file_path path : pystr) :
  resolved_path env file_path = Some path ->
  Suffix (str ".test.js") path \/ Suffix (str ".test.jsx") path ->
  (forall d, In d excluded_dirs -> ~ In d (later_segments path)) ->
  is_relevant_file env file_path = Some true.
Proof.
  intros Hres Hsuf Hno. apply is_relevant_file_iff.
  exists path. split; [exact Hres|].
  split; [exact Hno|].
  assert (forall a b, Suffix a path -> Suffix b path ->
            length a <= length b -> endswith b a = false -> False) as Habs.
  { intros a b Ha Hb Hlen Hf. apply endswith_false in Hf. apply Hf.
    exact (Suffix_comparable a b path Ha Hb Hlen). }
  destruct Hsuf as [Hjs | Hjsx].
  - split.
    + exists (str ".js"). split; [vm_compute; tauto|].
      apply (Suffix_trans _ (str ".test.js")); [|exact Hjs].
      apply endswith_Suffix. reflexivity.
    + split; intros Hts.
      * apply (Habs (str ".test.ts") (str ".test.js") Hts Hjs);
          [simpl; lia | reflexivity].
      * apply (Habs (str ".test.js") (str ".test.tsx") Hjs Hts);
          [simpl; lia | reflexivity].
  - split.
    + exists (str ".jsx"). split; [vm_compute; tauto|].
      apply (Suffix_trans _ (str ".test.jsx")); [|exact Hjsx].
      apply endswith_Suffix. reflexivity.
    + split; intros Hts.
      * apply (Habs (str ".test.ts") (str ".test.jsx") Hts Hjsx);
          [simpl; lia | reflexivity].
      * apply (Habs (str ".test.tsx") (str ".test.jsx") Hts Hjsx);
          [simpl; lia | reflexivity].
Qed.

Lemma javascript_test_files_accepted_witness :
  is_relevant_file plain_env (str "/p/src/App.test.js") = Some true.
Proof.
  apply (javascript_test_files_accepted plain_env (str "/p/src/App.test.js")
           (str "/p/src/App.test.js")).
  - reflexivity.
  - left. apply endswith_Suffix. vm_compute. reflexivity.
  - intros d Hd Hin. vm_compute in Hd, Hin.
    repeat (destruct Hd as [<- | Hd]; [intuition discriminate|]). exact Hd.
Defined.

(** * Further properties: the ranker *)

Lemma scan_priorities_values (table : list (pystr * Z)) (path : pystr) :
  In (scan_priorities table path) (99%Z :: map snd table).
Proof.
  induction table as [|[key priority] table IH]; [left; reflexivity|].
  cbn [scan_priorities map snd].
  destruct (str_in _ path).
  - right. left. reflexivity.
  - destruct IH as [E | Hin]; [left; exact E | right; right; exact Hin].
Qed.

Lemma segment_rule (key path : pystr) :
  ~ In chr_slash key ->
  str_in (str "/" ++ key ++ str "/") path
  = existsb (str_eqb key) (inner_segments path).
Proof.
  intros Hkey.
  destruct (existsb (str_eqb key) (inner_segments path)) eqn:Hex.
  - apply str_in_Infix. apply (Infix_inner_segment key path Hkey).
    apply existsb_exists in Hex. destruct Hex as [x [Hin Heq]].
    apply str_eqb_eq in Heq. subst x. exact Hin.
  - apply str_in_false. intros Hinf.
    apply (Infix_inner_segment key path Hkey) in Hinf.
    assert (existsb (str_eqb key) (inner_segments path) = true) as Ht.
    { apply existsb_exists. exists key. split; [exact Hinf | apply str_eqb_refl]. }
    congruence.
Qed.

Lemma scan_priorities_first_listed (table : list (pystr * Z)) (path : pystr) :
  (forall item, In item table -> ~ In chr_slash (fst item)) ->
  scan_priorities table path = first_listed table (inner_segments path).
Proof.
  unfold first_listed.
  induction table as [|[key priority] table IH]; intros Hfree; [reflexivity|].
  cbn [scan_priorities find fst].
  rewrite (segment_rule key path (Hfree (key, priority) (or_introl eq_refl))).
  destruct (existsb (str_eqb key) (inner_segments path)); [reflexivity|].
  apply IH. intros item Hin. apply Hfree. right. exact Hin.
Qed.

Lemma priorities_sepfree (item : pystr * Z) :
  In item priorities -> ~ In chr_slash (fst item).
Proof.
  intros Hin. apply (names_sepfree (map fst priorities)).
  - vm_compute. reflexivity.
  - apply in_map. exact Hin.
Qed.

(** X4. [get_file_priority] returns one of 0, 1, 2, 3, 4, 5, 6 and 99, and
    it returns 0 exactly when some entry of [prioritize_paths] occurs in
    the normalised path. *)
Theorem get_file_priority_values (self : ProjectFlattener) (file_path : pystr) :
  In (get_file_priority self file_path) [0; 1; 2; 3; 4; 5; 6; 99]%Z
  /\ (get_file_priority self file_path = 0%Z <->
      exists p, In p (prioritize_paths self) /\ Infix p (normalized_path file_path)).
Proof.
  unfold get_file_priority. cbv zeta.
  pose proof (scan_priorities_values priorities (normalized_path file_path)) as Hval.
  destruct (existsb _ (prioritize_paths self)) eqn:Hex.
  - split; [left; reflexivity|]. split; [intros _ | reflexivity].
    apply existsb_exists in Hex. destruct Hex as [p [Hin Hp]].
    exists p. split; [exact Hin | apply str_in_Infix; exact Hp].
  - split.
    + cbn [priorities map snd] in Hval. cbn [In] in Hval |- *. tauto.
    + split.
      * intros E. rewrite E in Hval. cbn [priorities map snd In] in Hval.
        exfalso. intuition discriminate.
      * intros [p [Hin Hp]]. exfalso. apply str_in_Infix in Hp.
        assert (existsb (fun p => str_in p (normalized_path file_path))
                  (prioritize_paths self) = true) as Ht.
        { apply existsb_exists. exists p. split; assumption. }
        congruence.
Qed.

Lemma get_file_priority_values_witness :
  exists p, In p [str "src"] /\ Infix p (normalized_path (str "/p/src/a.ts")).
Proof.
  exact (proj1 (proj2 (get_file_priority_values (demo_flattener 100 [str "src"])
                         (str "/p/src/a.ts"))) eq_refl).
Defined.

(** X5. The table of [get_file_priority] works on whole path segments:
    unless a prioritized entry occurs in the normalised path, the result
    is the value of the first table entry, in the order of the table,
    whose name is a segment of the normalised path that is neither its
    first nor its last, and 99 when there is none. *)
Theorem get_file_priority_by_segments (self : ProjectFlattener) (file_path : pystr) :
  get_file_priority self file_path =
  if existsb (fun p => str_in p (normalized_path file_path)) (prioritize_paths self)
  then 0%Z
  else first_listed priorities (inner_segments (normalized_path file_path)).
Proof.
  unfold get_file_priority. cbv zeta.
  destruct (existsb _ (prioritize_paths self)); [reflexivity|].
  apply scan_priorities_first_listed. exact priorities_sepfree.
Qed.

(** * Further properties: the annotator *)

(** What a match of the import pattern looks like. *)
Lemma import_pattern_shape (text : pystr) (gs : list pystr) :
  Parses import_pattern text gs ->
  exists a b q1 c d q2,
    text = str "import" ++ a ++ str "from" ++ b ++ [q1] ++ (c :: d) ++ [q2]
    /\ gs = [str "import" ++ a ++ str "from" ++ b ++ [q1]; c :: d; [q2]]
    /\ forallb (in_charset Dot) a = true
    /\ b <> [] /\ forallb is_space b = true
    /\ is_quote q1 = true
    /\ c <> chr_nl /\ forallb (in_charset NotQuote) d = true
    /\ is_quote q2 = true.
Proof.
  intros P. cbn [import_pattern Parses] in P.
  destruct P as [a1 [a2 [gs1 [gs2 [-> [-> [[g1 [-> P1]] P2]]]]]]].
  destruct P2 as [a3 [a4 [gs3 [gs4 [-> [-> [[g3 [-> P3]] [g4 [-> P4]]]]]]]]].
  destruct P1 as [x1 [x2 [h1 [h2 [-> [-> [[-> ->] P1]]]]]]].
  destruct P1 as [y1 [y2 [i1 [i2 [-> [-> [[Ha ->] P1]]]]]]].
  destruct P1 as [z1 [z2 [j1 [j2 [-> [-> [[-> ->] P1]]]]]]].
  destruct P1 as [u1 [u2 [k1 [k2 [-> [-> [[Hb [Hsp ->]] [q1 [-> [Hq1 ->]]]]]]]]]].
  destruct P3 as [v1 [v2 [n1 [n2 [-> [-> [[c [-> [Hc ->]]] [Hd ->]]]]]]]].
  destruct P4 as [q2 [-> [Hq2 ->]]].
  exists y1, u1, q1, c, v2, q2.
  split; [rewrite <- !app_assoc; reflexivity|].
  split; [reflexivity|].
  repeat (split; [assumption|]).
  split; [|split; assumption].
  cbn [in_charset] in Hc. intros ->. discriminate.
Qed.

Lemma process_imports_step (content file_path before : pystr) (m : match_obj) :
  re_search import_pattern content = Some (before, m) ->
  content = before ++ m_text m ++ m_rest m
  /\ m_text m <> []
  /\ Parses import_pattern (m_text m) (m_groups m)
  /\ process_imports content file_path
     = before ++ replace_import m ++ process_imports (m_rest m) file_path.
Proof.
  intros H. destruct (re_search_some _ _ _ _ H) as [E [Hm _]].
  destruct (import_match_obj _ _ Hm) as [_ Hne].
  destruct (re_match_sound _ _ _ Hm) as [_ P].
  repeat (split; [assumption|]).
  unfold process_imports.
  apply (re_sub_leftmost import_pattern replace_import content before m H Hne).
Qed.

Lemma Subseq_length {A : Type} (l l' : list A) :
  Subseq l l' -> length l <= length l'.
Proof. induction 1; simpl; lia. Qed.

Lemma Subseq_app_l {A : Type} (a l l' : list A) :
  Subseq l l' -> Subseq l (a ++ l').
Proof. intros H. induction a; simpl; [exact H | constructor; assumption]. Qed.

Lemma Subseq_app_r {A : Type} (a l l' : list A) :
  Subseq l l' -> Subseq l (l' ++ a).
Proof.
  intros H. rewrite <- (app_nil_r l). apply Subseq_app; [exact H|].
  induction a; constructor; assumption.
Qed.

Lemma replace_import_keeps (m : match_obj) : Subseq (m_text m) (replace_import m).
Proof.
  unfold replace_import. cbv zeta. cbn [group].
  destruct (startswith _ _); [|apply Subseq_refl].
  apply Subseq_app_l. apply Subseq_app_r. apply Subseq_refl.
Qed.

Lemma process_imports_keeps (file_path : pystr) (n : nat) :
  forall content, length content <= n ->
    Subseq content (process_imports content file_path).
Proof.
  induction n as [|n IH]; intros content Hlen.
  - destruct content; [|simpl in Hlen; lia]. apply Subseq_refl.
  - destruct (re_search import_pattern content) as [[before m]|] eqn:H.
    + destruct (process_imports_step content file_path before m H)
        as [E [Hne [_ ->]]].
      rewrite E at 1.
      apply Subseq_app; [apply Subseq_refl|].
      apply Subseq_app; [apply replace_import_keeps|].
      apply IH. apply (f_equal (@length N)) in E. rewrite !length_app in E.
      destruct (m_text m); [congruence|]. simpl in E. lia.
    + unfold process_imports. rewrite re_sub_unmatched by exact H.
      apply Subseq_refl.
Qed.

(** X6. [process_imports] only inserts text: the content is what is left
    of the result when some characters are taken out, so the result is at
    least as long as the content. *)
Theorem process_imports_only_inserts (content file_path : pystr) :
  Subseq content (process_imports content file_path)
  /\ length content <= length (process_imports content file_path).
Proof.
  assert (Subseq content (process_imports content file_path)) as H
    by (apply (process_imports_keeps file_path (length content)); lia).
  split; [exact H | apply Subseq_length; exact H].
Qed.

Lemma process_imports_no_occurrence (content file_path : pystr) :
  (forall before text gs after,
      content = before ++ text ++ after -> ~ Parses import_pattern text gs) ->
  process_imports content file_path = content.
Proof.
  intros Hnone. unfold process_imports. apply re_sub_unmatched.
  apply re_search_no_occurrence. exact Hnone.
Qed.

(** X7. Content in which the word import or the word from does not occur
    is returned unchanged. *)
Theorem process_imports_needs_both_words (content file_path : pystr) :
  ~ Infix (str "import") content \/ ~ Infix (str "from") content ->
  process_imports content file_path = content.
Proof.
  intros Hno. apply process_imports_no_occurrence.
  intros before text gs after E P.
  destruct (import_pattern_shape text gs P)
    as [a [b [q1 [c [d [q2 [Et _]]]]]]].
  subst text. destruct Hno as [Hno | Hno]; apply Hno; rewrite E.
  - exists before, ((a ++ str "from" ++ b ++ [q1] ++ (c :: d) ++ [q2]) ++ after).
    rewrite <- !app_assoc. reflexivity.
  - exists (before ++ str "import" ++ a), ((b ++ [q1] ++ (c :: d) ++ [q2]) ++ after).
    rewrite <- !app_assoc. reflexivity.
Qed.

Lemma process_imports_needs_both_words_witness :
  process_imports (str "export const from = 1;") (str "x.ts")
  = str "export const from = 1;".
Proof.
  apply process_imports_needs_both_words. left.
  apply str_in_false. vm_compute. reflexivity.
Defined.

Lemma Infix_app_r (p s b : pystr) : Infix p s -> Infix p (s ++ b).
Proof.
  intros [x [y ->]]. exists x, (y ++ b). rewrite <- !app_assoc. reflexivity.
Qed.





(** * Further properties: the run *)

Section Run.

Variable env : Env.
Variable self : ProjectFlattener.


(** The ways one turn of the loop can end: the file is skipped, because
    it cannot be read or because the flush it asked for raised; or it is
    appended, behind a flush or without one. *)
Lemma process_file_outcomes (st st' : locals) (p : pystr) (w w' : world) :
  process_file env self st p w = (Ok st', w') ->
  (st' = st
   /\ (w' = w
       \/ (current_chunk st <> []
           /\ w' = after_failed_write env (chunk_path self (chunk_number st))
                     (TextFile (chunk_text (chunk_name (chunk_number st))
                                  (current_chunk st))) w)))
  \/ (exists rel content tokens,
        st' = append_file st rel content tokens /\ w' = w)
  \/ (current_chunk st <> []
      /\ exists rel content tokens,
           st' = append_file
                   {| current_chunk := [];
                      current_token_count := 0;
                      chunk_number := S (chunk_number st);
                      chunks := dict_set (chunks st) (chunk_name (chunk_number st))
                                  (map fst (current_chunk st)) |}
                   rel content tokens
           /\ w' = {| disk := dict_set (disk w) (chunk_path self (chunk_number st))
                                (TextFile (chunk_text (chunk_name (chunk_number st))
                                             (current_chunk st)));
                      attempts := S (attempts w) |}).
Proof.
  intros H. pose proof (process_file_cases env self st p w) as Hc.
  destruct (read_text env p) as [content|].
  2:{ rewrite Hc in H. injection H as <- <-. left. auto. }
  cbv zeta in Hc.
  pose proof (flush_if_over_outcome env self st
                (estimate_tokens env (file_content_of env self p content)) w) as Hf.
  destruct (flush_if_over env self st
              (estimate_tokens env (file_content_of env self p content)) w)
    as [[st1 | e] w1]; rewrite Hc in H; injection H as <- <-.
  - inversion Hf; subst.
    + right. left. eauto.
    + right. right. split; [assumption|]. eauto.
  - inversion Hf; subst. left. split; [reflexivity|]. right. split; [assumption|].
    reflexivity.
Qed.

Lemma NamesInv_initial : NamesInv initial_locals.
Proof. repeat split. constructor. Qed.

Lemma NamesInv_fresh (st : locals) :
  NamesInv st -> ~ In (chunk_name (chunk_number st)) (map fst (chunks st)).
Proof.
  intros [Hn [Hnames _]] Hin. rewrite Hnames in Hin.
  apply in_map_iff in Hin. destruct Hin as [j [E Hj]].
  apply chunk_name_inj in E. apply in_seq in Hj. lia.
Qed.

Lemma NamesInv_record (st : locals) :
  NamesInv st -> current_chunk st <> [] ->
  let listed := dict_set (chunks st) (chunk_name (chunk_number st))
                  (map fst (current_chunk st)) in
  length listed = S (length (chunks st))
  /\ map fst listed = map chunk_name (seq 1 (length listed))
  /\ Forall (fun item => snd item <> []) listed.
Proof.
  intros Hinv Hne listed. subst listed.
  rewrite (dict_set_fresh _ _ _ (NamesInv_fresh st Hinv)).
  destruct Hinv as [Hn [Hnames Hall]].
  rewrite length_app, Nat.add_comm. cbn [length Nat.add].
  split; [reflexivity|]. split.
  - rewrite map_app, Hnames, seq_S, map_app, Hn. reflexivity.
  - apply Forall_app. split; [exact Hall|]. constructor; [|constructor].
    cbn [snd]. destruct (current_chunk st); [congruence | discriminate].
Qed.

Lemma NamesInv_process_file (st st' : locals) (p : pystr) (w w' : world) :
  NamesInv st -> process_file env self st p w = (Ok st', w') -> NamesInv st'.
Proof.
  intros Hinv H.
  destruct (process_file_outcomes st st' p w w' H)
    as [[-> _] | [[rel [content [tokens [-> _]]]]
                 | [Hne [rel [content [tokens [-> _]]]]]]].
  - exact Hinv.
  - exact Hinv.
  - destruct (NamesInv_record st Hinv Hne) as [Hlen [Hnames Hall]].
    unfold NamesInv, append_file. cbn [chunk_number chunks].
    rewrite Hlen. split; [|split].
    + f_equal. exact (proj1 Hinv).
    + rewrite <- Hlen. exact Hnames.
    + exact Hall.
Qed.

Lemma Packed_NamesInv (paths : list pystr) (w0 : world) (st : locals) (w : world) :
  Packed env self paths w0 st w -> NamesInv st.
Proof.
  intros H.
  apply (for_each_process_file_inv env self NamesInv NamesInv_process_file
           paths initial_locals w0 st w NamesInv_initial H).
Qed.

Lemma final_flush_names (st st' : locals) (w w' : world) :
  NamesInv st -> final_flush env self st w = (Ok st', w') ->
  map fst (chunks st') = map chunk_name (seq 1 (length (chunks st')))
  /\ Forall (fun item => snd item <> []) (chunks st').
Proof.
  intros Hinv H. unfold final_flush in H.
  destruct (is_nonempty (current_chunk st)) eqn:Hcc.
  - unfold bind, write_chunk, fs_write, ret in H. cbv zeta in H.
    destruct (write_raises env (attempts w)); [discriminate|].
    injection H as <- <-. cbn [chunks].
    assert (current_chunk st <> []) as Hne
      by (destruct (current_chunk st); [discriminate | discriminate]).
    exact (proj2 (NamesInv_record st Hinv Hne)).
  - injection H as <- <-. exact (proj2 Hinv).
Qed.

(** ** What a run writes, and where *)







End Run.

(** X9. The files a completed run has packed follow the priorities: the
    paths of the chunks [flatten] returns are, in order, those of some of
    the selected files as the sort has left them, and of two of them the
    one with the larger priority number never comes first. *)
Theorem chunks_follow_priority (env : Env) (self : ProjectFlattener)
    (w0 : world) (listed : list (pystr * list pystr)) (w : world) :
  flatten env self w0 = (Ok listed, w) ->
  exists packed,
    Subseq packed (sorted_files env self)
    /\ concat (map snd listed) = map (rel_path_of env self) packed
    /\ (forall p, In p packed -> In p (all_files env self))
    /\ forall x y, Before x y packed ->
         (get_file_priority self x <= get_file_priority self y)%Z.
Proof.
  intros H. destruct (flatten_outcome env self w0 listed w H)
    as [packed [Hsub [Hlisted _]]].
  exists packed. split; [exact Hsub|]. split; [exact Hlisted|]. split.
  - intros p Hp. apply (Subseq_In _ _ p Hsub) in Hp.
    unfold sorted_files in Hp.
    exact (proj1 (list_sort_In (get_file_priority self) p _) Hp).
  - intros x y Hb.
    apply (ascending_Before (get_file_priority self) (sorted_files env self)).
    + apply list_sort_ascending.
    + exact (Subseq_Before x y packed _ Hsub Hb).
Qed.

Lemma chunks_follow_priority_witness :
  sorted_files (mixed_env never_raises) (demo_flattener 100 [])
  = [str "/p/components/b.ts"; str "/p/components/a.ts"; str "/p/z.ts";
     str "/p/y.ts"]
  /\ map (get_file_priority (demo_flattener 100 []))
       (sorted_files (mixed_env never_raises) (demo_flattener 100 []))
     = [1%Z; 1%Z; 99%Z; 99%Z]
  /\ exists packed,
       Subseq packed (sorted_files (mixed_env never_raises) (demo_flattener 100 []))
       /\ [str "components/b.ts"; str "components/a.ts"; str "z.ts"; str "y.ts"]
          = map (rel_path_of (mixed_env never_raises) (demo_flattener 100 [])) packed
       /\ forall x y, Before x y packed ->
            (get_file_priority (demo_flattener 100 []) x
             <= get_file_priority (demo_flattener 100 []) y)%Z.
Proof.
  split; [reflexivity|]. split; [reflexivity|].
  destruct (chunks_follow_priority (mixed_env never_raises) (demo_flattener 100 [])
              empty_world
              [(str "chunk_1.txt", [str "components/b.ts"; str "components/a.ts"]);
               (str "chunk_2.txt", [str "z.ts"; str "y.ts"])]
              _ eq_refl) as [packed [Hsub [Hlisted [_ Hle]]]].
  exists packed. split; [exact Hsub|]. split; [exact Hlisted | exact Hle].
Defined.

Section Skipping.

Variable env : Env.
Variable self : ProjectFlattener.

Lemma for_each_skips_unreadable (paths : list pystr) :
  forall st w,
    for_each (process_file env self) paths st w
    = for_each (process_file env self) (filter (readable env) paths) st w.
Proof.
  induction paths as [|p paths IH]; intros st w; [reflexivity|].
  cbn [filter]. unfold readable at 1.
  pose proof (process_file_cases env self st p w) as Hc.
  destruct (read_text env p) as [content|].
  - cbn [for_each]. unfold bind.
    destruct (process_file env self st p w) as [[st1 | e] w1]; [apply IH | reflexivity].
  - cbn [for_each]. unfold bind at 1. rewrite Hc. apply IH.
Qed.

Lemma for_each_nothing_readable (paths : list pystr) (st : locals) (w : world) :
  (forall p, In p paths -> read_text env p = None) ->
  for_each (process_file env self) paths st w = (Ok st, w).
Proof.
  intros Hnone. rewrite for_each_skips_unreadable.
  replace (filter (readable env) paths) with (@nil pystr); [reflexivity|].
  symmetry. induction paths as [|p paths IH]; [reflexivity|].
  cbn [filter]. unfold readable at 1.
  rewrite (Hnone p (or_introl eq_refl)). apply IH.
  intros q Hq. apply Hnone. right. exact Hq.
Qed.

End Skipping.

(** X10. A file that cannot be read leaves no trace: the loop over a list
    of paths ends in the same state, with the same files written, as the
    loop over the readable paths of the list. *)
Theorem unreadable_files_are_skipped (env : Env) (self : ProjectFlattener)
    (paths : list pystr) (w : world) :
  pack env self paths w = pack env self (filter (readable env) paths) w.
Proof. unfold pack. apply for_each_skips_unreadable. Qed.

(** X11. When [resolve] returns for every file the walk lists, none of
    the selected files can be read (in particular when none is selected)
    and the write of the manifest does not raise, [flatten] returns the
    empty dictionary, writes no chunk, and stores a manifest with
    [total_chunks] 0 and no chunk entries. *)
Theorem nothing_readable_gives_empty_manifest (env : Env) (self : ProjectFlattener)
    (w0 : world) :
  Resolves env self ->
  (forall p, In p (all_files env self) -> read_text env p = None) ->
  write_raises env (attempts w0) = false ->
  flatten env self w0
  = (Ok [],
     {| disk := dict_set (disk w0) (manifest_path self)
                  (JsonFile {| manifest_project_path := project_path self;
                               total_chunks := 0;
                               manifest_chunks := [] |});
        attempts := S (attempts w0) |}).
Proof.
  intros Hres Hnone Hw. rewrite (flatten_after_scan env self w0 Hres).
  unfold bind, pack.
  rewrite for_each_nothing_readable.
  2:{ intros p Hp. apply Hnone. unfold sorted_files in Hp.
      apply list_sort_In in Hp. exact Hp. }
  cbn [final_flush initial_locals current_chunk is_nonempty ret chunks].
  unfold create_chunk_manifest, bind, fs_write, ret. cbv zeta.
  rewrite Hw. reflexivity.
Qed.

Lemma nothing_readable_gives_empty_manifest_witness :
  flatten (demo_env [str "a.ts"; str "notes.md"] [str "a.ts"] never_raises)
    (demo_flattener 100 []) empty_world
  = (Ok [],
     {| disk := [(str "flattened_output/manifest.json",
                  JsonFile {| manifest_project_path := str "/p";
                              total_chunks := 0;
                              manifest_chunks := [] |})];
        attempts := 1 |}).
Proof.
  apply (nothing_readable_gives_empty_manifest
           (demo_env [str "a.ts"; str "notes.md"] [str "a.ts"] never_raises)
           (demo_flattener 100 []) empty_world).
  - intros p Hp E. vm_compute in E. discriminate.
  - intros p Hp. vm_compute in Hp. destruct Hp as [<- | []]. reflexivity.
  - reflexivity.
Defined.

Section Errors.

Variable env : Env.
Variable self : ProjectFlattener.





End Errors.





(** X14. The chunks of a completed run are numbered from 1 without a gap:
    the dictionary [flatten] returns has the keys [chunk_1.txt] to
    [chunk_n.txt] in this order, no chunk is empty, and the manifest in
    the output directory has [total_chunks] n, the same keys, and for
    each chunk a [file_count] that is the length of its file list and at
    least 1. *)
Theorem chunk_names_are_numbered (env : Env) (self : ProjectFlattener)
    (w0 : world) (listed : list (pystr * list pystr)) (w : world) :
  flatten env self w0 = (Ok listed, w) ->
  map fst listed = map chunk_name (seq 1 (length listed))
  /\ Forall (fun item => snd item <> []) listed
  /\ exists m,
       dict_get (disk w) (manifest_path self) = Some (JsonFile m)
       /\ total_chunks m = length listed
       /\ map fst (manifest_chunks m) = map chunk_name (seq 1 (length listed))
       /\ Forall (fun item => file_count (snd item) = length (files (snd item))
                              /\ 1 <= file_count (snd item))
            (manifest_chunks m).
Proof.
  intros H.
  destruct (flatten_stages env self w0 listed w H)
    as [st [w1 [st' [w2 [path [Hp [Hf [_ ->]]]]]]]].
  destruct (final_flush_names env self st st' w1 w2
              (Packed_NamesInv env self _ w0 st w1 Hp) Hf) as [Hnames Hall].
  split; [exact Hnames|]. split; [exact Hall|].
  destruct (flatten_outcome env self w0 (chunks st') w H) as [_ [_ [_ [Hm _]]]].
  exists (build_manifest self (chunks st')). split; [exact Hm|].
  destruct (build_manifest_counts self (chunks st')) as [Ht [Hk _]].
  split; [exact Ht|]. split; [rewrite Hk; exact Hnames|].
  unfold build_manifest. cbn [manifest_chunks].
  clear - Hall. induction Hall as [|item l Hne _ IH]; cbn [map]; constructor.
  - cbn [snd files file_count]. split; [reflexivity|].
    destruct (snd item); [congruence | simpl; lia].
  - exact IH.
Qed.

Lemma chunk_names_are_numbered_witness :
  map fst [(str "chunk_1.txt", [str "a.ts"]); (str "chunk_2.txt", [str "b.ts"])]
  = map chunk_name (seq 1 2).
Proof.
  exact (proj1 (chunk_names_are_numbered (two_files_env never_raises)
                  (demo_flattener 50 []) empty_world
                  [(str "chunk_1.txt", [str "a.ts"]);
                   (str "chunk_2.txt", [str "b.ts"])] _ eq_refl)).
Defined.

(** X15. When [resolve] returns for every file the walk lists and no
    write raises, [flatten] returns, and what it returns and what the
    manifest lists are exactly the selected files that can be read, in
    sorted order: none is left out, none is added, and none is listed
    twice when their relative paths differ. When [resolve] raises for a
    file the walk lists, [flatten] raises and nothing is written. *)
Theorem readable_files_all_packed_when_writes_succeed (env : Env)
    (self : ProjectFlattener) (w0 : world) :
  ((exists p, In p (walk_files env self) /\ resolve env p = None) ->
   flatten env self w0 = (Raise ResolveError, w0))
  /\ (Resolves env self ->
      (forall n, write_raises env n = false) ->
      exists listed w,
        flatten env self w0 = (Ok listed, w)
        /\ concat (map snd listed)
           = map (rel_path_of env self)
               (filter (readable env) (sorted_files env self))
        /\ dict_get (disk w) (manifest_path self)
           = Some (JsonFile (build_manifest self listed))
        /\ concat (map (fun item => files (snd item))
                     (manifest_chunks (build_manifest self listed)))
           = map (rel_path_of env self)
               (filter (readable env) (sorted_files env self))
        /\ (forall r,
              In r (concat (map snd listed)) <->
              exists p, In p (all_files env self) /\ readable env p = true
                        /\ r = rel_path_of env self p)
        /\ (NoDup (map (rel_path_of env self) (all_files env self)) ->
            NoDup (concat (map snd listed)))).
Proof.
  split; [apply flatten_scan_raises|].
  intros Hres Hw.
  destruct (manifest_complete_when_writes_succeed env self w0 Hres Hw)
    as [listed [w [H [Hm [Hfiles [Hin Hnd]]]]]].
  exists listed, w. split; [exact H|].
  split; [rewrite <- (manifest_lists_chunks self listed); exact Hfiles|].
  split; [exact Hm|]. split; [exact Hfiles|]. split; [exact Hin | exact Hnd].
Qed.

Lemma readable_files_all_packed_when_writes_succeed_witness :
  exists listed w,
    flatten (demo_env [str "a.ts"; str "b.ts"; str "c.ts"] [str "b.ts"] never_raises)
      (demo_flattener 100 []) empty_world = (Ok listed, w)
    /\ concat (map snd listed) = [str "a.ts"; str "c.ts"].
Proof.
  destruct (proj2 (readable_files_all_packed_when_writes_succeed
                     (demo_env [str "a.ts"; str "b.ts"; str "c.ts"] [str "b.ts"]
                        never_raises)
                     (demo_flattener 100 []) empty_world)
              ltac:(intros p _ E; vm_compute in E; discriminate)
              (fun n => eq_refl))
    as [listed [w [H [Hl _]]]].
  exists listed, w. split; [exact H|]. rewrite Hl. reflexivity.
Defined.





Lemma selected_true (env : Env) (p : pystr) :
  selected env p = true <-> is_relevant_file env p = Some true.
Proof.
  unfold selected. destruct (is_relevant_file env p) as [[|]|]; split;
    congruence.
Qed.

(** X18. Nothing enters a chunk that was not selected and read: in every
    completed run, also one in which write errors were swallowed, the
    paths of the returned chunks are, in order, those of some of the
    files that the walk found, that [is_relevant_file] accepted and that
    could be read; and no path is listed twice when the relative paths of
    the selected files differ. *)
Theorem packed_files_are_selected_and_readable (env : Env)
    (self : ProjectFlattener) (w0 : world)
    (listed : list (pystr * list pystr)) (w : world) :
  flatten env self w0 = (Ok listed, w) ->
  exists packed,
    concat (map snd listed) = map (rel_path_of env self) packed
    /\ Subseq packed (filter (readable env) (sorted_files env self))
    /\ (forall p, In p packed ->
          In p (walk_files env self)
          /\ is_relevant_file env p = Some true
          /\ readable env p = true)
    /\ (NoDup (map (rel_path_of env self) (all_files env self)) ->
        NoDup (concat (map snd listed))).
Proof.
  intros H.
  destruct (flatten_stages env self w0 listed w H)
    as [st [w1 [st' [w2 [path [Hp [Hf [_ ->]]]]]]]].
  unfold Packed, pack in Hp. rewrite for_each_skips_unreadable in Hp.
  pose proof (Packed_OrderInv env self _ w0 st w1 Hp) as Hinv.
  destruct (final_flush_order env self _ st st' w1 w2 Hinv Hf)
    as [_ [_ [packed [Hsub Hlisted]]]].
  exists packed. split; [exact Hlisted|]. split; [exact Hsub|]. split.
  - intros p Hin. apply (Subseq_In _ _ p Hsub) in Hin.
    apply filter_In in Hin. destruct Hin as [Hin Hr].
    unfold sorted_files in Hin.
    apply (proj1 (list_sort_In (get_file_priority self) p _)) in Hin.
    unfold all_files in Hin. apply filter_In in Hin.
    destruct Hin as [Hwalk Hrel]. apply selected_true in Hrel. auto.
  - intros Hnd. rewrite Hlisted.
    apply (Subseq_NoDup _ _ (Subseq_map (rel_path_of env self) _ _ Hsub)).
    apply (Subseq_NoDup _ (map (rel_path_of env self) (sorted_files env self))).
    + apply Subseq_map, filter_Subseq.
    + apply (Permutation_NoDup (l := map (rel_path_of env self) (all_files env self)));
        [|exact Hnd].
      apply Permutation_map, Permutation_sym, list_sort_Permutation.
Qed.

Lemma packed_files_are_selected_and_readable_witness :
  exists packed,
    [str "a.ts"]
    = map (rel_path_of (two_files_env first_write_raises) (demo_flattener 50 []))
        packed
    /\ forall p, In p packed ->
         readable (two_files_env first_write_raises) p = true.
Proof.
  destruct (packed_files_are_selected_and_readable
              (two_files_env first_write_raises) (demo_flattener 50 [])
              empty_world [(str "chunk_1.txt", [str "a.ts"])] _ eq_refl)
    as [packed [Hl [_ [Hall _]]]].
  exists packed. split; [exact Hl|]. intros p Hp. exact (proj2 (proj2 (Hall p Hp))).
Defined.

(** * Further properties: the script *)

Lemma not_prioritized_inv (paths : list pystr) (path : pystr) :
  existsb (fun p => str_in p path) paths = false ->
  forall p, In p paths -> ~ Infix p path.
Proof.
  intros Hf p Hin Hinf.
  assert (existsb (fun p => str_in p path) paths = true) as Ht.
  { apply prioritized_existsb. exists p. split; assumption. }
  congruence.
Qed.

(** X19. For the object the script constructs, [get_file_priority]
    gives 0 exactly when the normalised path contains [src/components],
    [src/pages] or [src/features]; it gives 1, 2 or 3 only when the
    directory of that value stands as a segment inside the normalised
    path without [src/] directly in front of it. *)
Theorem script_priorities_shadow_table (abspath : pystr -> pystr)
    (entered file_path : pystr) :
  (get_file_priority (main_flattener abspath entered) file_path = 0%Z <->
   Infix (str "src/components") (normalized_path file_path)
   \/ Infix (str "src/pages") (normalized_path file_path)
   \/ Infix (str "src/features") (normalized_path file_path))
  /\ (forall key k,
        In (key, k) (firstn 3 priorities) ->
        get_file_priority (main_flattener abspath entered) file_path = k ->
        In key (inner_segments (normalized_path file_path))
        /\ ~ Infix (str "src/" ++ key) (normalized_path file_path)).
Proof.
  unfold get_file_priority. cbv zeta.
  change (prioritize_paths (main_flattener abspath entered)) with main_priorities.
  set (path := normalized_path file_path).
  pose proof (scan_priorities_values priorities path) as Hval.
  destruct (existsb (fun p => str_in p path) main_priorities) eqn:Hex.
  - split.
    + split; [intros _ | reflexivity].
      apply prioritized_existsb in Hex. destruct Hex as [p [Hin Hp]].
      cbn [main_priorities In] in Hin.
      destruct Hin as [<- | [<- | [<- | []]]]; auto.
    + intros key k Hin E. subst k. exfalso.
      cbn [firstn priorities In] in Hin.
      destruct Hin as [Hin | [Hin | [Hin | []]]]; discriminate.
  - pose proof (not_prioritized_inv main_priorities path Hex) as Hno.
    split.
    + split.
      * intros E. rewrite E in Hval. cbn [priorities map snd In] in Hval.
        exfalso. intuition discriminate.
      * intros H. exfalso.
        destruct H as [H | [H | H]];
          [apply (Hno (str "src/components")) | apply (Hno (str "src/pages"))
           | apply (Hno (str "src/features"))];
          try exact H; cbn [main_priorities In]; auto.
    + intros key k Hin E.
      assert (str_in (str "/" ++ key ++ str "/") path = true
              /\ In (str "src/" ++ key) main_priorities) as [Hhit Hsrc].
      { cbn [firstn priorities In] in Hin. cbn [priorities scan_priorities] in E.
        destruct Hin as [Hin | [Hin | [Hin | []]]];
          injection Hin as <- <-;
          (split; [|cbn [main_priorities In]; auto]);
          repeat match type of E with
                 | (if ?b then _ else _) = _ =>
                     destruct b eqn:?; try discriminate; try reflexivity
                 end; try discriminate. }
      split.
      * apply Infix_inner_segment.
        -- apply (priorities_sepfree (key, k)).
           cbn [firstn priorities In] in Hin. cbn [priorities In]. tauto.
        -- apply str_in_Infix. exact Hhit.
      * apply Hno. exact Hsrc.
Qed.

Lemma script_priorities_shadow_table_witness :
  In (str "components")
    (inner_segments (normalized_path (str "/p/lib/components/a.ts")))
  /\ ~ Infix (str "src/" ++ str "components")
         (normalized_path (str "/p/lib/components/a.ts")).
Proof.
  apply (proj2 (script_priorities_shadow_table (fun p => p) (str "/p")
                  (str "/p/lib/components/a.ts"))
           (str "components") 1%Z).
  - left. reflexivity.
  - vm_compute. reflexivity.
Defined.

(** * Further properties: the chunk file *)

Lemma listing_lines (contents : list (pystr * pystr)) (rest : pystr) :
  (forall e, In e contents -> ~ In chr_nl (fst e)) ->
  split chr_nl
    (concat (map (fun entry => str "- " ++ fst entry ++ [chr_nl]) contents) ++ rest)
  = map (fun entry => str "- " ++ fst entry) contents ++ split chr_nl rest.
Proof.
  induction contents as [|e contents IH]; intros Hfree; [reflexivity|].
  cbn [map concat]. rewrite <- !app_assoc.
  change (str "- " ++ fst e ++ [chr_nl] ++
          concat (map (fun entry => str "- " ++ fst entry ++ [chr_nl]) contents)
          ++ rest)
    with ((str "- " ++ fst e) ++ chr_nl ::
          (concat (map (fun entry => str "- " ++ fst entry ++ [chr_nl]) contents)
           ++ rest)).
  rewrite split_sepfree_app.
  - rewrite IH; [reflexivity|]. intros x Hx. apply Hfree. right. exact Hx.
  - intros Hin. apply in_app_or in Hin. destruct Hin as [Hin | Hin].
    + vm_compute in Hin. intuition discriminate.
    + exact (Hfree e (or_introl eq_refl) Hin).
Qed.

(** X20. The head of a chunk file can be read back line by line: when
    neither the chunk's name nor any of the paths contains a newline, the
    lines of what [write_chunk] writes are the title with the name, an
    empty line, the heading, one line with a dash and the path for each
    entry in order, an empty line, a rule of 80 equals signs and an empty
    line, followed by the lines of the concatenated contents. *)
Theorem chunk_text_lines (chunk_file : pystr) (chunk_contents : list (pystr * pystr)) :
  ~ In chr_nl chunk_file ->
  (forall e, In e chunk_contents -> ~ In chr_nl (fst e)) ->
  split chr_nl (chunk_text chunk_file chunk_contents)
  = [str "# Chunk: " ++ chunk_file; []; str "## Contained Files:"]
    ++ map (fun entry => str "- " ++ fst entry) chunk_contents
    ++ [[]; str_repeat 61 80; []]
    ++ split chr_nl (concat (map snd chunk_contents)).
Proof.
  intros Hname Hpaths. unfold chunk_text.
  set (listing := concat (map (fun entry => str "- " ++ fst entry ++ [chr_nl])
                            chunk_contents)).
  set (body := concat (map snd chunk_contents)).
  replace ((str "# Chunk: " ++ chunk_file ++ [chr_nl; chr_nl])
           ++ (str "## Contained Files:" ++ [chr_nl])
           ++ listing ++ ([chr_nl] ++ str_repeat 61 80 ++ [chr_nl; chr_nl]) ++ body)
    with ((str "# Chunk: " ++ chunk_file) ++ chr_nl ::
          ([] ++ chr_nl ::
           (str "## Contained Files:" ++ chr_nl ::
            (listing ++
             ([] ++ chr_nl :: (str_repeat 61 80 ++ chr_nl :: ([] ++ chr_nl :: body)))))))
    by (cbn [app]; rewrite <- !app_assoc; cbn [app];
        repeat (rewrite <- ?app_assoc; cbn [app]); reflexivity).
  rewrite split_sepfree_app.
  2:{ intros Hin. apply in_app_or in Hin. destruct Hin as [Hin | Hin];
        [vm_compute in Hin; intuition discriminate | exact (Hname Hin)]. }
  rewrite split_sepfree_app by (intros []).
  rewrite split_sepfree_app by (vm_compute; intuition discriminate).
  unfold listing. rewrite (listing_lines chunk_contents _ Hpaths).
  rewrite split_sepfree_app by (intros []).
  rewrite split_sepfree_app by (vm_compute; intuition discriminate).
  rewrite split_sepfree_app by (intros []).
  reflexivity.
Qed.

Lemma chunk_text_lines_witness :
  firstn 5 (split chr_nl (chunk_text (str "chunk_1.txt")
                            [(str "a.ts", str "x"); (str "b.ts", str "y")]))
  = [str "# Chunk: chunk_1.txt"; []; str "## Contained Files:";
     str "- a.ts"; str "- b.ts"].
Proof.
  rewrite chunk_text_lines.
  - reflexivity.
  - vm_compute. intuition discriminate.
  - intros e He. vm_compute in He |- *.
    destruct He as [<- | [<- | []]]; cbn [fst]; intuition discriminate.
Defined.

(** * Further properties: chunk files of earlier runs *)

Section Stale.

Variable env : Env.
Variable self : ProjectFlattener.




End Stale.



(** * Further properties: a project below an excluded directory *)

Lemma excluded_segment_rejects (env : Env) (d file_path path : pystr) :
  resolved_path env file_path = Some path ->
  In d excluded_dirs ->
  In d (later_segments path) ->
  is_relevant_file env file_path = Some false.
Proof.
  intros Hres Hd Hseg. unfold is_relevant_file. rewrite Hres. cbn [option_map].
  f_equal. destruct (is_relevant_path path) eqn:E; [|reflexivity].
  exfalso. apply is_relevant_path_iff in E. exact (proj1 E d Hd Hseg).
Qed.

(** X22. The directory rule looks at the whole resolved path, not only at
    the part below the project: when every file of the walk has an
    excluded directory name among the segments of its resolved path (as
    when the project itself lies below a directory named [build]), no
    file is selected, and [flatten] returns the empty dictionary and
    writes a manifest with [total_chunks] 0, provided that write does not
    raise. *)
Theorem excluded_ancestor_excludes_everything (env : Env)
    (self : ProjectFlattener) (w0 : world) :
  (forall p, In p (walk_files env self) ->
     exists path d, resolved_path env p = Some path
                    /\ In d excluded_dirs
                    /\ In d (later_segments path)) ->
  write_raises env (attempts w0) = false ->
  all_files env self = []
  /\ excluded_files env self = walk_files env self
  /\ flatten env self w0
     = (Ok [],
        {| disk := dict_set (disk w0) (manifest_path self)
                     (JsonFile {| manifest_project_path := project_path self;
                                  total_chunks := 0;
                                  manifest_chunks := [] |});
           attempts := S (attempts w0) |}).
Proof.
  intros Hall Hw.
  assert (Resolves env self) as Hres.
  { intros p Hp E. destruct (Hall p Hp) as [path [d [Hpath _]]].
    unfold resolved_path in Hpath. rewrite E in Hpath. discriminate. }
  assert (forall p, In p (walk_files env self) -> selected env p = false)
    as Hrej.
  { intros p Hp. destruct (Hall p Hp) as [path [d [Hpath [Hd Hseg]]]].
    unfold selected.
    rewrite (excluded_segment_rejects env d p path Hpath Hd Hseg). reflexivity. }
  assert (all_files env self = []) as Hnone.
  { unfold all_files. clear Hall. induction (walk_files env self) as [|p l IH];
      [reflexivity|].
    cbn [filter]. rewrite (Hrej p (or_introl eq_refl)).
    apply IH. intros q Hq. apply Hrej. right. exact Hq. }
  split; [exact Hnone|]. split.
  - unfold excluded_files. clear Hall Hnone.
    induction (walk_files env self) as [|p l IH]; [reflexivity|].
    cbn [filter]. rewrite (Hrej p (or_introl eq_refl)). cbn [negb].
    rewrite IH; [reflexivity|]. intros q Hq. apply Hrej. right. exact Hq.
  - rewrite (flatten_after_scan env self w0 Hres).
    unfold bind, pack, sorted_files. rewrite Hnone.
    cbn [list_sort fold_right for_each ret final_flush initial_locals
         current_chunk is_nonempty chunks].
    unfold create_chunk_manifest, bind, fs_write, ret. cbv zeta.
    rewrite Hw. reflexivity.
Qed.

Lemma excluded_ancestor_excludes_everything_witness :
  walk_files nested_env nested_flattener = [str "/srv/build/p/a.ts"]
  /\ all_files nested_env nested_flattener = [].
Proof.
  split; [reflexivity|].
  apply (excluded_ancestor_excludes_everything nested_env nested_flattener
           empty_world).
  - intros p Hp. exists p, (str "build").
    vm_compute in Hp. destruct Hp as [<- | []].
    split; [reflexivity|]. split; vm_compute; tauto.
  - reflexivity.
Defined.
